(** * Austrian Companies Scraper ([src/main.js]): model and properties

    A shallow embedding of the actor's entry point and of its helpers
    [scrapeTopCompanies], [enrichCompanyContact], [resolveWebsite],
    [scrapContactPages], [scrapeTenderData] and [getSeedCompaniesAustria].

    - JavaScript values are an inductive type; company records live in a
      heap of objects (finite maps from property names to values), because
      [main] stores the tender data into objects it keeps in an array.
    - Effects (logging, HTTP requests, the output dataset, the heap) are
      threaded through a state-and-exception monad [M]; the loop of
      [scrapContactPages] runs in a monad [L] that also carries the object
      [contactInfo], which the loop changes in place.
    - The network, the clock and the number of arguments that the engine
      takes in one call are a parameter [world].
    - The task queue of [main] is studied as a transition system in
      [Module Scheduler]. *)

From Stdlib Require Import ZArith Lia Ascii String.
From stdpp Require Import gmap strings list fin_maps pretty.

Set Warnings "-register-all,-clear-no-such-hyp".
Open Scope string_scope.
Open Scope list_scope.
Open Scope stdpp_scope.

(** ** JavaScript values *)

(** Numbers are the integer-valued ones (all numbers of the program are
    counts, ranks and amounts); arrays and nested objects that nobody
    mutates after their creation are values. *)
Inductive value :=
| VUndefined
| VNull
| VBool (b : bool)
| VNum (n : Z)
| VStr (s : string)
| VArr (l : list value)
| VObj (o : gmap string value).

(** An object of the heap: own properties by name. *)
Abbreviation obj := (gmap string value).

(** ToBoolean. *)
Definition truthy (v : value) : bool :=
  match v with
  | VUndefined | VNull => false
  | VBool b => b
  | VNum n => negb (n =? 0)%Z
  | VStr s => negb (String.eqb s "")
  | VArr _ | VObj _ => true
  end.

(** [a || b] *)
Definition js_or (a b : value) : value := if truthy a then a else b.

Fixpoint join (sep : string) (l : list string) : string :=
  match l with
  | [] => ""
  | [x] => x
  | x :: r => x +:+ sep +:+ join sep r
  end.

(** ToString, as the template literals and [+] with a string apply it. *)
Fixpoint to_string (v : value) : string :=
  match v with
  | VUndefined => "undefined"
  | VNull => "null"
  | VBool true => "true"
  | VBool false => "false"
  | VNum n => pretty n
  | VStr s => s
  | VArr l =>
      join "," (map (fun x => match x with
                              | VUndefined | VNull => ""
                              | _ => to_string x
                              end) l)
  | VObj _ => "[object Object]"
  end.

(** [v + path] where [path] is a string: string concatenation. *)
Definition js_concat (v : value) (path : string) : string :=
  to_string v +:+ path.

(** [String.prototype.includes] *)
Fixpoint includes (needle hay : string) : bool :=
  String.prefix needle hay ||
  match hay with
  | EmptyString => false
  | String _ rest => includes needle rest
  end.

(** [Array.prototype.slice(start, end)] with integer arguments: a negative
    index counts from the end of the array. *)
Definition clamp_index (len i : Z) : Z :=
  if (i <? 0)%Z then Z.max (len + i) 0 else Z.min i len.

Definition js_slice {A} (l : list A) (start end_ : Z) : list A :=
  let len := Z.of_nat (length l) in
  let k := clamp_index len start in
  let final := clamp_index len end_ in
  take (Z.to_nat (Z.max (final - k) 0)) (drop (Z.to_nat k) l).

(** ** Regular expressions

    A JavaScript string is kept as the bytes of its UTF-8 encoding (a lone
    surrogate as the three bytes of its code point), so that every text a
    page can hold is a [string]; two strings are equal when their bytes
    are, and the program joins strings only next to an ASCII literal, where
    joining the bytes joins the strings.

    The two patterns of [scrapContactPages] are alternatives of sequences
    of quantified character classes.  A class is asked about one character
    of the text, that is a byte together with the continuation bytes that
    follow it; no class of the two patterns holds a character beyond the
    Basic Multilingual Plane, so that matching by characters and matching
    by UTF-16 code units find the same matches.  Quantifiers are greedy
    and backtrack, alternatives are tried from left to right, and the [g]
    flag collects the successive leftmost matches. *)

Definition code (c : ascii) : N := Ascii.N_of_ascii c.

(** The bytes [10xxxxxx], which continue a character. *)
Definition is_continuation (c : ascii) : bool :=
  (128 <=? code c)%N && (code c <=? 191)%N.

(** The characters of a text, from left to right. *)
Fixpoint chars (s : string) : list string :=
  match s with
  | EmptyString => []
  | String a rest =>
      match chars rest with
      | String b c :: cs =>
          if is_continuation b then String a (String b c) :: cs
          else String a "" :: String b c :: cs
      | cs => String a "" :: cs
      end
  end.

Record atom := Atom {
  atom_class : string -> bool;
  atom_min : nat;
  atom_max : option nat
}.

Abbreviation regex := (list (list atom)).

Definition bytes (c : string) : list N := code <$> list_ascii_of_string c.

(** The characters of one byte from [lo] to [hi]. *)
Definition between (lo hi : N) (c : string) : bool :=
  match bytes c with
  | [n] => (lo <=? n)%N && (n <=? hi)%N
  | _ => false
  end.

Definition is_char (x : ascii) (c : string) : bool := String.eqb (String x "") c.

(** [\d] *)
Definition is_digit : string -> bool := between 48 57.
(** [a-zA-Z] *)
Definition is_alpha (c : string) : bool := between 97 122 c || between 65 90 c.
(** [\s]: TAB, LF, VT, FF, CR and the space; U+00A0; U+1680; U+2000 to
    U+200A, U+2028, U+2029 and U+202F; U+205F; U+3000; U+FEFF. *)
Definition is_space (c : string) : bool :=
  match bytes c with
  | [n] => ((9 <=? n) && (n <=? 13) || (n =? 32))%N
  | [a; b] => ((a =? 194) && (b =? 160))%N
  | [a; b; d] =>
      ((a =? 225) && (b =? 154) && (d =? 128) ||
       (a =? 226) && (b =? 128) &&
         ((128 <=? d) && (d <=? 138) || (d =? 168) || (d =? 169) || (d =? 175)) ||
       (a =? 226) && (b =? 129) && (d =? 159) ||
       (a =? 227) && (b =? 128) && (d =? 128) ||
       (a =? 239) && (b =? 187) && (d =? 191))%N
  | _ => false
  end.

(** [[a-zA-Z0-9._%+-]] *)
Definition is_local (c : string) : bool :=
  is_alpha c || is_digit c || is_char "." c || is_char "_" c ||
  is_char "%" c || is_char "+" c || is_char "-" c.
(** [[a-zA-Z0-9.-]] *)
Definition is_domain (c : string) : bool :=
  is_alpha c || is_digit c || is_char "." c || is_char "-" c.
(** [[\s-]] *)
Definition is_sep (c : string) : bool := is_space c || is_char "-" c.

Definition one (p : string -> bool) : atom := Atom p 1 (Some 1).
Definition opt (p : string -> bool) : atom := Atom p 0 (Some 1).
Definition plus (p : string -> bool) : atom := Atom p 1 None.
Definition at_least (n : nat) (p : string -> bool) : atom := Atom p n None.
Definition range (n m : nat) (p : string -> bool) : atom := Atom p n (Some m).

(** [/[a-zA-Z0-9._%+-]+@[a-zA-Z0-9.-]+\.[a-zA-Z]{2,}/g] *)
Definition emailRegex : regex :=
  [[plus is_local; one (is_char "@"); plus is_domain; one (is_char ".");
    at_least 2 is_alpha]].

(** [/\+43\s?\d{1,4}[\s-]?\d{1,4}[\s-]?\d{1,9}|0\d{1,4}[\s-]?\d{1,9}/g] *)
Definition phoneRegex : regex :=
  [[one (is_char "+"); one (is_char "4"); one (is_char "3"); opt is_space;
    range 1 4 is_digit; opt is_sep; range 1 4 is_digit; opt is_sep;
    range 1 9 is_digit];
   [one (is_char "0"); range 1 4 is_digit; opt is_sep; range 1 9 is_digit]].

(** A quantified class followed by the continuation [k]; the result is the
    number of characters of the whole match from the current position. *)
Fixpoint rep (p : string -> bool) (lo : nat) (hi : option nat)
    (k : list string -> option nat) (s : list string) : option nat :=
  let stop := match lo with O => k s | S _ => None end in
  match s with
  | a :: rest =>
      if p a && negb (bool_decide (hi = Some O)) then
        match rep p (pred lo) (pred <$> hi) k rest with
        | Some n => Some (S n)
        | None => stop
        end
      else stop
  | [] => stop
  end.

Fixpoint match_seq (atoms : list atom) : list string -> option nat :=
  match atoms with
  | [] => fun _ => Some O
  | a :: r => rep (atom_class a) (atom_min a) (atom_max a) (match_seq r)
  end.

Fixpoint match_here (r : regex) (s : list string) : option nat :=
  match r with
  | [] => None
  | alt :: r' =>
      match match_seq alt s with
      | Some n => Some n
      | None => match_here r' s
      end
  end.

(** All matches from left to right; [skip] counts the characters of the
    previous match that are still to be passed. *)
Fixpoint match_all (r : regex) (skip : nat) (s : list string) : list string :=
  match s with
  | [] =>
      match skip, match_here r s with
      | O, Some _ => [""]
      | _, _ => []
      end
  | _ :: rest =>
      match skip with
      | S n => match_all r n rest
      | O =>
          match match_here r s with
          | Some (S n) => String.concat "" (take (S n) s) :: match_all r n rest
          | Some O => "" :: match_all r 0 rest
          | None => match_all r 0 rest
          end
      end
  end.

(** [text.match(re) || []] *)
Definition js_match (r : regex) (text : string) : list string :=
  match_all r 0 (chars text).

(** ** [Set] of strings

    A [Set] keeps its elements in insertion order and ignores the insertion
    of an element it already has. *)
Definition set_add (s : list string) (x : string) : list string :=
  if bool_decide (x ∈ s) then s else s ++ [x].

(** [[...new Set(arr)]] *)
Definition js_Set (arr : list string) : list string :=
  fold_left set_add arr [].

(** The reading of "every repeated string removed, keeping only its first
    occurrence", for comparison with [js_Set]. *)
Fixpoint keep_first (l : list string) : list string :=
  match l with
  | [] => []
  | x :: r => x :: filter (fun y => y ≠ x) (keep_first r)
  end.

(** ** State, world and the monad of effects *)

(** References to heap objects. *)
Abbreviation loc := positive.

Inductive level := LInfo | LError.

(** What a run can observe and change: the heap of objects, the lines
    written through [Apify.utils.log], the URLs requested through
    [axios.get] (oldest first) and the records pushed to the dataset. *)
Record state := State {
  heap : gmap loc obj;
  log : list (level * string);
  requests : list string;
  dataset : list obj
}.

Definition empty_state : state := State ∅ [] [] [].

(** The answer to one HTTP request, after [cheerio.load] and [$.text()]:
    the text of the page, or a failure of any of the three steps. *)
Inductive response := Failed (message : string) | Page (text : string).

(** The environment: [fetch n url] answers the request for [url] issued
    after [n] earlier requests (so a server may fail once and answer
    later), [clock n] is the time stamp read before the push number [n],
    and [max_arguments] is the number of arguments the engine has room for
    in one call. *)
Record world := World {
  fetch : nat -> string -> response;
  clock : nat -> string;
  max_arguments : N
}.

(** Exceptions are [Error] objects; the model keeps their [message]. *)
Inductive outcome (A : Type) := Ok (a : A) | Throw (message : string).
Arguments Ok {A} a.
Arguments Throw {A} message.

Definition M (A : Type) : Type := state -> outcome A * state.

Definition ret {A} (a : A) : M A := fun s => (Ok a, s).

Definition bind {A B} (m : M A) (k : A -> M B) : M B :=
  fun s =>
    match m s with
    | (Ok a, s') => k a s'
    | (Throw e, s') => (Throw e, s')
    end.

Definition throw {A} (e : string) : M A := fun s => (Throw e, s).

(** [try { m } catch (err) { h err }] *)
Definition try_catch {A} (m : M A) (h : string -> M A) : M A :=
  fun s =>
    match m s with
    | (Ok a, s') => (Ok a, s')
    | (Throw e, s') => h e s'
    end.

#[global] Instance M_ret : MRet M := @ret.
#[global] Instance M_bind : MBind M := fun A B k m => bind m k.

(** [for (const x of l) { acc = body acc x }], stopping at the first
    exception that escapes the body. *)
Fixpoint for_of {A B} (l : list A) (body : B -> A -> M B) (acc : B) : M B :=
  match l with
  | [] => mret acc
  | x :: r => acc' ← body acc x; for_of r body acc'
  end.

Definition set_heap (h : gmap loc obj) (s : state) : state :=
  State h (log s) (requests s) (dataset s).

Definition log_line (lv : level) (msg : string) : M unit :=
  fun s => (Ok tt, State (heap s) (log s ++ [(lv, msg)]) (requests s) (dataset s)).

Definition log_info : string -> M unit := log_line LInfo.
Definition log_error : string -> M unit := log_line LError.

(** A new object with the given properties. *)
Definition alloc (o : obj) : M loc :=
  fun s =>
    let l := fresh (dom (heap s)) in
    (Ok l, set_heap (<[l := o]> (heap s)) s).

(** The own properties of an object, as the spread [{...x}] reads them. *)
Definition read_obj (l : loc) : M obj :=
  fun s => (Ok (default ∅ (heap s !! l)), s).

(** [x.k] on a heap object *)
Definition get_field (l : loc) (k : string) : M value :=
  fun s => (Ok (default VUndefined (heap s !! l ≫= fun o => o !! k)), s).

(** [x.k = v] on a heap object *)
Definition set_field (l : loc) (k : string) (v : value) : M unit :=
  fun s => (Ok tt, set_heap (alter (fun o => <[k := v]> o) l (heap s)) s).

(** [v.k] on a value: reading a property of [undefined] or [null] throws a
    [TypeError]. *)
Definition get_prop (v : value) (k : string) : M value :=
  match v with
  | VUndefined | VNull =>
      throw ("Cannot read properties of " +:+ to_string v)
  | VObj o => mret (default VUndefined (o !! k))
  | _ => mret VUndefined
  end.

(** [dataset.pushData(record)] *)
Definition push_data (record : obj) : M unit :=
  fun s => (Ok tt, State (heap s) (log s) (requests s) (dataset s ++ [record])).

(** ** The contact data of one call

    [scrapContactPages] creates the object [contactInfo] and changes it in
    place.  A computation [L A] reads and writes this object next to the
    state; what it wrote before an exception is there when the exception is
    caught. *)
Record contactInfo := ContactInfo {
  emails : list string;
  phones : list string;
  address : string;
  imprint_url : string
}.

Definition L (A : Type) : Type :=
  contactInfo -> state -> outcome A * contactInfo * state.

Definition ret_L {A} (a : A) : L A := fun c s => (Ok a, c, s).

Definition bind_L {A B} (m : L A) (k : A -> L B) : L B :=
  fun c s =>
    match m c s with
    | (Ok a, c', s') => k a c' s'
    | (Throw e, c', s') => (Throw e, c', s')
    end.

Definition throw_L {A} (e : string) : L A := fun c s => (Throw e, c, s).

Definition try_catch_L {A} (m : L A) (h : string -> L A) : L A :=
  fun c s =>
    match m c s with
    | (Ok a, c', s') => (Ok a, c', s')
    | (Throw e, c', s') => h e c' s'
    end.

#[global] Instance L_ret : MRet L := @ret_L.
#[global] Instance L_bind : MBind L := fun A B k m => bind_L m k.

(** A computation that does not touch the object. *)
Definition lift {A} (m : M A) : L A :=
  fun c s => match m s with (r, s') => (r, c, s') end.

(** The object as it is. *)
Definition the_contactInfo : L contactInfo := fun c s => (Ok c, c, s).

(** [contactInfo.emails = l], [contactInfo.phones = l] and
    [contactInfo.imprint_url = u] *)
Definition set_emails (l : list string) : L unit :=
  fun c s => (Ok tt, ContactInfo l (phones c) (address c) (imprint_url c), s).

Definition set_phones (l : list string) : L unit :=
  fun c s => (Ok tt, ContactInfo (emails c) l (address c) (imprint_url c), s).

Definition set_imprint_url (u : string) : L unit :=
  fun c s => (Ok tt, ContactInfo (emails c) (phones c) (address c) u, s).

(** [const contactInfo = init; ...; return ...] *)
Definition with_contactInfo {A} (init : contactInfo) (m : L A) : M A :=
  fun s => match m init s with (r, _, s') => (r, s') end.

(** [for (const x of l) { body x }] on the object, stopping at the first
    exception that escapes the body. *)
Fixpoint for_each {A} (l : list A) (body : A -> L unit) : L unit :=
  match l with
  | [] => mret tt
  | x :: r => body x;; for_each r body
  end.

Section Program.

Variable w : world.

(** [new Date().toISOString()] *)
Definition date_now : M string :=
  fun s => (Ok (clock w (length (dataset s))), s).

(** [axios.get(url, ...)], [cheerio.load(response.data)] and [$.text()]:
    the request is issued, and either one of the three throws or the text
    of the page is there. *)
Definition axios_get_text (url : string) : M string :=
  fun s =>
    let s' := State (heap s) (log s) (requests s ++ [url]) (dataset s) in
    match fetch w (length (requests s)) url with
    | Failed e => (Throw e, s')
    | Page text => (Ok text, s')
    end.

(** *** [getSeedCompaniesAustria] *)

Definition seedCompany (rank : Z) (name industry city : string) (metric : Z)
    (url : string) : obj :=
  <["rank" := VNum rank]> (
  <["company_name" := VStr name]> (
  <["industry" := VStr industry]> (
  <["hq_city" := VStr city]> (
  <["metric_type" := VStr "revenue"]> (
  <["metric_value" := VNum metric]> (
  <["website_url" := VStr url]> ∅)))))).

Definition seedCompanies : list obj :=
  [ seedCompany 1 "OMV Aktiengesellschaft" "Energy" "Vienna" 62500000000
      "https://www.omv.com";
    seedCompany 2 "Voestalpine AG" "Steel & Materials" "Linz" 16200000000
      "https://www.voestalpine.com";
    seedCompany 3 "Erste Group Bank AG" "Finance" "Vienna" 14600000000
      "https://www.erstegroup.com" ].

(** An array literal of object literals: the objects are created one after
    the other. *)
Fixpoint alloc_all (os : list obj) : M (list loc) :=
  match os with
  | [] => mret []
  | o :: r => l ← alloc o; ls ← alloc_all r; mret (l :: ls)
  end.

(** The array literal creates its objects anew at every call. *)
Definition getSeedCompaniesAustria : M (list loc) := alloc_all seedCompanies.

(** *** [scrapeTopCompanies] *)

Definition scrapeTopCompanies (strategy : string) (limit : Z) : M (list loc) :=
  try_catch
    (log_info ("Scraping top " +:+ pretty limit +:+ " companies by " +:+ strategy);;
     seedData ← getSeedCompaniesAustria;
     mret (js_slice seedData 0 limit))
    (fun err =>
       log_error ("Error scraping top companies: " +:+ err);;
       mret []).

(** *** [resolveWebsite] *)

Definition resolveWebsite (companyName : value) : M string :=
  try_catch (mret "") (fun _ => mret "").

(** *** [scrapContactPages] *)

Definition pagesToScrape : list string :=
  ["/"; "/contact"; "/kontakt"; "/impressum"; "/imprint"; "/about"; "/ubersicht"].

(** [f(...items)] passes every item as an argument of its own, and a call
    with more arguments than the engine has room for throws a
    [RangeError]. *)
Definition spread (items : list string) : L unit :=
  if (N.of_nat (length items) <=? max_arguments w)%N then mret tt
  else throw_L "Maximum call stack size exceeded".

(** [contactInfo.emails.push(...items)] and
    [contactInfo.phones.push(...items)] *)
Definition push_emails (items : list string) : L unit :=
  spread items;;
  c ← the_contactInfo;
  set_emails (emails c ++ items).

Definition push_phones (items : list string) : L unit :=
  spread items;;
  c ← the_contactInfo;
  set_phones (phones c ++ items).

(** The body of the loop over [pagesToScrape]: whatever is thrown inside is
    caught, and the loop goes on with the contact data as the body left
    them. *)
Definition scrapPage (websiteUrl : value) (path : string) : L unit :=
  try_catch_L
    (let fullUrl := js_concat websiteUrl path in
     text ← lift (axios_get_text fullUrl);
     let found_emails := js_match emailRegex text in
     push_emails found_emails;;
     let found_phones := js_match phoneRegex text in
     push_phones found_phones;;
     if includes "imprint" path || includes "impressum" path
     then set_imprint_url fullUrl
     else mret tt)
    (fun _ => mret tt).

Definition scrapContactPages (websiteUrl : value) : M contactInfo :=
  with_contactInfo (ContactInfo [] [] "" "")
    (for_each pagesToScrape (scrapPage websiteUrl);;
     c ← the_contactInfo;
     set_emails (js_Set (emails c));;
     c ← the_contactInfo;
     set_phones (js_Set (phones c));;
     the_contactInfo).

(** *** [enrichCompanyContact] *)

Definition enrichCompanyContact (company : loc) : M loc :=
  copy ← read_obj company;
  enriched ← alloc copy;
  url ← get_field enriched "website_url";
  (if negb (truthy url) then
     name ← get_field enriched "company_name";
     resolved ← resolveWebsite name;
     set_field enriched "website_url" (VStr resolved)
   else mret tt);;
  url ← get_field enriched "website_url";
  (if truthy url then
     info ← scrapContactPages url;
     set_field enriched "emails" (js_or (VArr (VStr <$> emails info)) (VArr []));;
     set_field enriched "phones" (js_or (VArr (VStr <$> phones info)) (VArr []));;
     set_field enriched "address" (js_or (VStr (address info)) (VStr ""));;
     set_field enriched "imprint_url" (js_or (VStr (imprint_url info)) (VStr ""))
   else mret tt);;
  mret enriched.

(** *** [scrapeTenderData] *)

Definition emptyTenderData : value :=
  VObj (<["open_count" := VNum 0]> (
        <["closed_count" := VNum 0]> (
        <["tenders" := VArr []]> (
        <["last_tender_date" := VNull]> ∅)))).

Definition scrapeTenderData (company : loc) (lookbackMonths : Z) : M value :=
  let tenderData := emptyTenderData in
  try_catch
    (name ← get_field company "company_name";
     log_info ("Searching tenders for: " +:+ to_string name);;
     mret tenderData)
    (fun err =>
       log_error ("Tender scraping error: " +:+ err);;
       mret tenderData).

End Program.

(** ** The actor's entry point *)

(** The actor input; an absent property is [None].  [extract_emails] and
    [extract_phones] belong to the documented input but are never read. *)
Record input := Input {
  ranking_strategy : option string;
  top_n : option Z;
  include_tenders : option bool;
  tender_lookback_months : option Z;
  max_concurrent_requests : option Z;
  extract_emails : option bool;
  extract_phones : option bool
}.

(** [const { f = d } = input || {}] *)
Definition field_or {A} (i : option input) (f : input -> option A) (d : A) : A :=
  default d (i ≫= f).

(** The queue of [p-queue].  Its constructor rejects a concurrency below 1
    with a [TypeError].  [add] returns a promise that settles when the task
    does, and [main] awaits each [add] before the next one, so a task has
    run to its end when the loop goes on ([Scheduler] studies this
    schedule); [onIdle] then finds the queue empty. *)
Record PQueue := { concurrency : Z }.

Definition new_PQueue (c : Z) : M PQueue :=
  if (c <? 1)%Z
  then throw "Expected `concurrency` to be a number from 1 and up"
  else mret {| concurrency := c |}.

Definition queue_add {A} (queue : PQueue) (task : M A) : M A := task.

Definition queue_onIdle (queue : PQueue) : M unit := mret tt.

(** The tender data stored when the tender task fails. *)
Definition fallbackTenderData : value :=
  VObj (<["open_count" := VNum 0]> (
        <["closed_count" := VNum 0]> (
        <["tenders" := VArr []]> ∅))).

Section Main.

Variable w : world.

(** The two functions the tasks call, so that the handlers of [main] can be
    studied for callees that throw. *)
Variable enrich : loc -> M loc.
Variable tender : loc -> Z -> M value.

(** The task of TASK B for one company. *)
Definition enrichTask (enrichedCompanies : list loc) (company : loc)
    : M (list loc) :=
  try_catch
    (enriched ← enrich company;
     name ← get_field enriched "company_name";
     log_info ("Enriched: " +:+ to_string name);;
     mret (enrichedCompanies ++ [enriched]))
    (fun err =>
       name ← get_field company "company_name";
       log_error ("Error enriching " +:+ to_string name +:+ ": " +:+ err);;
       mret enrichedCompanies).

(** The task of TASK C for one company. *)
Definition tenderTask (lookback : Z) (company : loc) : M unit :=
  try_catch
    (tenderData ← tender company lookback;
     set_field company "tender_data" tenderData;;
     name ← get_field company "company_name";
     open_count ← get_prop tenderData "open_count";
     log_info ("Tenders for " +:+ to_string name +:+ ": " +:+
               to_string open_count +:+ " open"))
    (fun err =>
       name ← get_field company "company_name";
       log_error ("Error fetching tenders for " +:+ to_string name +:+ ": " +:+ err);;
       set_field company "tender_data" fallbackTenderData).

Definition contactPass (queue : PQueue) (companies : list loc) : M (list loc) :=
  enrichedCompanies ←
    for_of companies (fun acc company => queue_add queue (enrichTask acc company)) [];
  queue_onIdle queue;;
  mret enrichedCompanies.

Definition tenderPass (queue : PQueue) (lookback : Z)
    (enrichedCompanies : list loc) : M unit :=
  for_of enrichedCompanies
    (fun _ company => queue_add queue (tenderTask lookback company)) tt;;
  queue_onIdle queue.

Definition saveResults (enrichedCompanies : list loc) : M unit :=
  for_of enrichedCompanies
    (fun _ company =>
       record ← read_obj company;
       now ← date_now w;
       push_data (<["scraped_at" := VStr now]> record)) tt.

Definition main_with (i : option input) : M unit :=
  let ranking_strategy := field_or i ranking_strategy "revenue" in
  let top_n := field_or i top_n 100%Z in
  let include_tenders := field_or i include_tenders true in
  let tender_lookback_months := field_or i tender_lookback_months 12%Z in
  let max_concurrent_requests := field_or i max_concurrent_requests 5%Z in
  log_info "Starting Austrian Companies Scraper";;
  log_info ("Config: Strategy=" +:+ ranking_strategy +:+ ", Top=" +:+
            pretty top_n +:+ ", Tenders=" +:+ to_string (VBool include_tenders));;
  queue ← new_PQueue max_concurrent_requests;
  try_catch
    (log_info "=== TASK A: Fetching top Austrian companies ===";;
     companies ← scrapeTopCompanies ranking_strategy top_n;
     log_info ("Found " +:+ pretty (length companies) +:+ " companies");;
     log_info "=== TASK B: Enriching contact data ===";;
     enrichedCompanies ← contactPass queue companies;
     (if include_tenders then
        log_info "=== TASK C: Fetching tender data ===";;
        tenderPass queue tender_lookback_months enrichedCompanies
      else mret tt);;
     log_info "=== Saving results ===";;
     saveResults enrichedCompanies;;
     log_info ("Successfully scraped " +:+ pretty (length enrichedCompanies) +:+
               " companies"))
    (fun err =>
       log_error ("Main error: " +:+ err);;
       throw err).

End Main.

Definition main (w : world) : option input -> M unit :=
  main_with w (enrichCompanyContact w) scrapeTenderData.

(** ** The schedule of the task queue

    [main] creates one queue with [concurrency: max_concurrent_requests]
    and gives it every task of TASK B and of TASK C:
    [for (company of ...) { await queue.add(task) }] followed by
    [await queue.onIdle()].  The transition system below keeps the control
    skeleton of [main] and, of the queue, that a task waits until fewer
    than [concurrency] tasks run, that the promise of [add] settles with the
    task, and that [onIdle] resumes when nothing waits or runs.  The tasks
    catch what they throw, so they always settle; [ok] tells whether the
    enrichment succeeded and the company was pushed to
    [enrichedCompanies]. *)
Module Scheduler.

Inductive pass := TaskB | TaskC.

(** A task: its pass and the index of its company in the array looped
    over. *)
Abbreviation task := (pass * nat)%type.

(** Where [main] is. *)
Inductive control :=
| Adding (p : pass) (i : nat)    (* at the head of the loop, [i] tasks done *)
| Awaiting (p : pass) (i : nat)  (* in [await queue.add(...)] of task [i] *)
| Idling (p : pass)              (* in [await queue.onIdle()] *)
| Saving.                        (* past the two passes *)

Record sched := Sched {
  at_ : control;
  waiting : list task;         (* added, not started *)
  running : list task;         (* started, not settled *)
  settled : list task;
  enrichedCompanies : nat      (* [enrichedCompanies.length] *)
}.

Definition is_TaskB (t : task) : bool :=
  match t.1 with TaskB => true | TaskC => false end.

Section Run.

Variable max_concurrent_requests : Z.
(** [companies.length] *)
Variable companies : nat.
Variable include_tenders : bool.

(** The length of the array a pass loops over. *)
Definition count (p : pass) (n : nat) : nat :=
  match p with TaskB => companies | TaskC => n end.

(** What follows [await queue.onIdle()]. *)
Definition after (p : pass) : control :=
  match p with
  | TaskB => if include_tenders then Adding TaskC 0 else Saving
  | TaskC => Saving
  end.

Inductive step : sched → sched → Prop :=
| step_add p i w r d n :
    (i < count p n)%nat →
    step (Sched (Adding p i) w r d n) (Sched (Awaiting p i) (w ++ [(p, i)]) r d n)
| step_loop_end p i w r d n :
    ¬ (i < count p n)%nat →
    step (Sched (Adding p i) w r d n) (Sched (Idling p) w r d n)
| step_start c t w r d n :
    (Z.of_nat (length r) < max_concurrent_requests)%Z →
    step (Sched c (t :: w) r d n) (Sched c w (r ++ [t]) d n)
| step_settle c t w r1 r2 d n (ok : bool) :
    step (Sched c w (r1 ++ t :: r2) d n)
         (Sched c w (r1 ++ r2) (t :: d) (if ok && is_TaskB t then S n else n))
| step_resume p i w r d n :
    (p, i) ∈ d →
    step (Sched (Awaiting p i) w r d n) (Sched (Adding p (S i)) w r d n)
| step_idle p d n :
    step (Sched (Idling p) [] [] d n) (Sched (after p) [] [] d n).

(** [new PQueue({ concurrency })] throws unless the concurrency is a
    number from 1 up; then nothing is scheduled at all. *)
Definition initial : option sched :=
  if (max_concurrent_requests <? 1)%Z then None
  else Some (Sched (Adding TaskB 0) [] [] [] 0).

Definition reachable (s : sched) : Prop :=
  ∃ s0, initial = Some s0 ∧ rtc step s0 s.

(** Every task of TASK B has settled. *)
Definition passB_done (s : sched) : Prop :=
  ∀ i, (i < companies)%nat → (TaskB, i) ∈ settled s.

Definition quiet (s : sched) : Prop := waiting s = [] ∧ running s = [].

Definition in_flight (s : sched) : list task := running s ++ waiting s.

(** What the pass [main] is in says about the other pass. *)
Definition other_pass (p : pass) (s : sched) : Prop :=
  match p with
  | TaskB => ∀ j, (TaskC, j) ∉ settled s
  | TaskC => passB_done s
  end.

Definition inv (s : sched) : Prop :=
  match at_ s with
  | Adding p i =>
      quiet s ∧ (∀ j, (p, j) ∈ settled s ↔ (j < i)%nat) ∧ other_pass p s
  | Awaiting p i =>
      ((in_flight s = [(p, i)] ∧ ∀ j, (p, j) ∈ settled s ↔ (j < i)%nat) ∨
       (quiet s ∧ ∀ j, (p, j) ∈ settled s ↔ (j < S i)%nat)) ∧
      other_pass p s
  | Idling p =>
      quiet s ∧
      (∀ j, (j < count p (enrichedCompanies s))%nat → (p, j) ∈ settled s) ∧
      other_pass p s
  | Saving => quiet s ∧ passB_done s
  end.

End Run.

End Scheduler.

(** ** Vocabulary of the statements *)

(** The answers to the requests for [urls], the first of them being the
    request number [n]. *)
Fixpoint responses (w : world) (n : nat) (urls : list string) : list response :=
  match urls with
  | [] => []
  | u :: r => fetch w n u :: responses w (S n) r
  end.

(** The texts of the pages that were fetched and parsed. *)
Definition page_texts (rs : list response) : list string :=
  omap (fun r => match r with Page t => Some t | Failed _ => None end) rs.

(** All matches of [re] on the fetched pages, in the order of the requests. *)
Definition accumulated (re : regex) (rs : list response) : list string :=
  flat_map (js_match re) (page_texts rs).

Definition with_requests (s : state) (urls : list string) : state :=
  State (heap s) (log s) (requests s ++ urls) (dataset s).

(** The text is empty or begins with a byte that begins a character. *)
Definition starts_plain (s : string) : Prop :=
  match s with
  | EmptyString => True
  | String b _ => is_continuation b = false
  end.

(** The engine has room for [items] as the arguments of one call. *)
Definition fits (w : world) (items : list string) : bool :=
  (N.of_nat (length items) <=? max_arguments w)%N.

(** What the body of the loop pushes to [contactInfo.emails] and to
    [contactInfo.phones] when its request is answered by [r]: the phones
    are reached only when the emails were pushed. *)
Definition pushed_emails (w : world) (r : response) : list string :=
  match r with
  | Failed _ => []
  | Page text =>
      if fits w (js_match emailRegex text) then js_match emailRegex text else []
  end.

Definition pushed_phones (w : world) (r : response) : list string :=
  match r with
  | Failed _ => []
  | Page text =>
      if fits w (js_match emailRegex text) && fits w (js_match phoneRegex text)
      then js_match phoneRegex text else []
  end.

(** The contact data after the body of the loop ran for [path], its
    request being answered by [r]. *)
Definition after_page (w : world) (fullUrl path : string) (r : response)
    (c : contactInfo) : contactInfo :=
  ContactInfo (emails c ++ pushed_emails w r) (phones c ++ pushed_phones w r)
    (address c)
    (match r with
     | Failed _ => imprint_url c
     | Page text =>
         if fits w (js_match emailRegex text) && fits w (js_match phoneRegex text)
            && (includes "imprint" path || includes "impressum" path)
         then fullUrl else imprint_url c
     end).

(** The body of the loop for [path] ran to its end: the page was fetched
    and the engine had room for its matches; [imprint_after] is the
    imprint URL after the loop ran over [paths] with the answers [rs]. *)
Definition page_done (w : world) (r : response) : bool :=
  match r with
  | Failed _ => false
  | Page text =>
      fits w (js_match emailRegex text) && fits w (js_match phoneRegex text)
  end.

Fixpoint imprint_after (w : world) (v : value) (paths : list string)
    (rs : list response) (u : string) : string :=
  match paths, rs with
  | p :: paths', r :: rs' =>
      imprint_after w v paths' rs'
        (if page_done w r && (includes "imprint" p || includes "impressum" p)
         then js_concat v p else u)
  | _, _ => u
  end.

(** The contact data after the loop ran over [paths], the first request
    being the request number [n]. *)
Fixpoint swept (w : world) (v : value) (n : nat) (paths : list string)
    (c : contactInfo) : contactInfo :=
  match paths with
  | [] => c
  | p :: r =>
      swept w v (S n) r
        (after_page w (js_concat v p) p (fetch w n (js_concat v p)) c)
  end.

(** The contact data that one call of [scrapContactPages] returns when its
    first request is the request number [n]. *)
Definition contact_of (w : world) (v : value) (n : nat) : contactInfo :=
  let c := swept w v n pagesToScrape (ContactInfo [] [] "" "") in
  ContactInfo (js_Set (emails c)) (js_Set (phones c)) (address c) (imprint_url c).

(** The engine has room for the matches of the page, at both pushes. *)
Definition within_limit (w : world) (r : response) : bool :=
  match r with
  | Failed _ => true
  | Page text =>
      fits w (js_match emailRegex text) && fits w (js_match phoneRegex text)
  end.

(** The contact data that the loop of [scrapContactPages] has collected
    when it has run over [paths], from the state [s]. *)
Definition collected (w : world) (websiteUrl : value) (paths : list string)
    (s : state) : contactInfo :=
  (for_each paths (scrapPage w websiteUrl) (ContactInfo [] [] "" "") s).1.2.

(** The properties written by the scraping branch of [enrichCompanyContact]. *)
Definition with_contact (info : contactInfo) (o : obj) : obj :=
  <["imprint_url" := VStr (imprint_url info)]> (
  <["address" := VStr (address info)]> (
  <["phones" := VArr (VStr <$> phones info)]> (
  <["emails" := VArr (VStr <$> emails info)]> o))).

(** The state after one more log line. *)
Definition logged (lv : level) (msg : string) (s : state) : state :=
  State (heap s) (log s ++ [(lv, msg)]) (requests s) (dataset s).

(** The states in which the tasks of [main] start: [s] and the lines
    logged since. *)
Definition at_taskA (i : option input) (s : state) : state :=
  logged LInfo "=== TASK A: Fetching top Austrian companies ==="
    (logged LInfo
       ("Config: Strategy=" +:+ field_or i ranking_strategy "revenue" +:+
        ", Top=" +:+ pretty (field_or i top_n 100%Z) +:+ ", Tenders=" +:+
        to_string (VBool (field_or i include_tenders true)))
       (logged LInfo "Starting Austrian Companies Scraper" s)).

Definition at_taskB (companies : list loc) (s : state) : state :=
  logged LInfo "=== TASK B: Enriching contact data ==="
    (logged LInfo ("Found " +:+ pretty (length companies) +:+ " companies") s).

Definition at_taskC (s : state) : state :=
  logged LInfo "=== TASK C: Fetching tender data ===" s.

(** The value of [x.k] for the heap object [x], in state [s]. *)
Definition field (s : state) (l : loc) (k : string) : value :=
  default VUndefined (heap s !! l ≫= fun o => o !! k).

(** The records pushed for the companies [ls], the first of them being the
    push number [n]. *)
Fixpoint records (w : world) (h : gmap loc obj) (n : nat) (ls : list loc)
    : list obj :=
  match ls with
  | [] => []
  | c :: r =>
      <["scraped_at" := VStr (clock w n)]> (default ∅ (h !! c))
      :: records w h (S n) r
  end.

(** *** Vocabulary of the further properties *)

(** The [website_url] of a company record. *)
Definition website_of (o : obj) : value := default VUndefined (o !! "website_url").

(** The requests the enrichment of the record [o] issues. *)
Definition requests_for (o : obj) : list string :=
  if truthy (website_of o) then js_concat (website_of o) <$> pagesToScrape
  else [].

(** The enriched copy of the record [o], when the first request of the
    enrichment is number [n]. *)
Definition enriched_obj (w : world) (n : nat) (o : obj) : obj :=
  if truthy (website_of o)
  then with_contact (contact_of w (website_of o) n) o
  else <["website_url" := VStr ""]> o.

(** The enriched copies of the records [os], enriched one after the other
    from request number [n] on. *)
Fixpoint enriched_objs (w : world) (n : nat) (os : list obj) : list obj :=
  match os with
  | [] => []
  | o :: r =>
      enriched_obj w n o :: enriched_objs w (n + length (requests_for o)) r
  end.

(** The log [l'] is [l] followed by lines of level info only. *)
Definition info_ext (l l' : list (level * string)) : Prop :=
  ∃ new, l' = l ++ new ∧ Forall (fun x => x.1 = LInfo) new.

(** What TASK C leaves in a record. *)
Definition tendered (tenders : bool) (o : obj) : obj :=
  if tenders then <["tender_data" := emptyTenderData]> o else o.

(** The records of the dataset for the enriched records [os], the first of
    them being the push number [d]. *)
Fixpoint output_records (w : world) (d : nat) (tenders : bool) (os : list obj)
    : list obj :=
  match os with
  | [] => []
  | o :: r =>
      <["scraped_at" := VStr (clock w d)]> (tendered tenders o)
      :: output_records w (S d) tenders r
  end.

(** [x] is a run of characters that the quantified class [a] accepts. *)
Definition in_atom (a : atom) (x : list string) : Prop :=
  (atom_min a ≤ length x)%nat ∧
  (∀ h, atom_max a = Some h → (length x ≤ h)%nat) ∧
  forallb (atom_class a) x = true.

(** The character sequences of a sequence of quantified classes. *)
Inductive in_seq : list atom → list string → Prop :=
| in_seq_nil : in_seq [] []
| in_seq_cons a r x y : in_atom a x → in_seq r y → in_seq (a :: r) (x ++ y).

(** The character sequences of a pattern. *)
Definition in_regex (r : regex) (x : list string) : Prop :=
  ∃ alt, alt ∈ r ∧ in_seq alt x.

(** The characters a phone match can hold. *)
Definition is_phone_char (c : string) : bool :=
  is_digit c || is_sep c || is_char "+" c.

(** The bytes of a string are characters of the class [p]. *)
Fixpoint each (p : string → bool) (s : string) : bool :=
  match s with
  | EmptyString => true
  | String a r => p (String a "") && each p r
  end.

(** A class of one-byte characters. *)
Definition one_byte (p : string → bool) : Prop :=
  ∀ c, p c = true → ∃ a, c = String a "".

(** ** Sample worlds, heaps and callees *)

(** A site whose imprint page alone answers. *)
Definition imprint_only : world :=
  World (fun _ url =>
           if String.eqb url "https://www.omv.com/impressum"
           then Page "OMV AG, office@omv.com, office@omv.com, Tel +43 1 40440"
           else Failed "timeout of 5000ms exceeded")
        (fun n => "2026-02-24T17:00:0" +:+ pretty n +:+ ".000Z")
        125000.

(** A site that refuses the first request it gets and answers all later
    ones. *)
Definition fails_once : world :=
  World (fun n _ =>
           match n with
           | O => Failed "socket hang up"
           | S _ => Page "info@voestalpine.com"
           end)
        (fun _ => "2026-02-24T17:00:00.000Z")
        125000.

(** An engine with room for two arguments only, and a site whose imprint
    page holds one mail address and three phone numbers. *)
Definition two_arguments : world :=
  World (fun _ url =>
           if String.eqb url "https://www.omv.com/imprint"
           then Page "a@omv.com, 011, 022, 033"
           else Failed "timeout of 5000ms exceeded")
        (fun _ => "2026-02-24T17:00:00.000Z")
        2.

(** A site whose imprint page lists one phone number 200000 times, after
    one mail address. *)
Fixpoint repeat_string (n : nat) (s : string) : string :=
  match n with
  | O => ""
  | S m => s +:+ repeat_string m s
  end.

Definition long_text : string :=
  "office@omv.com," +:+ repeat_string (N.to_nat 200000) "011,".

Definition long_imprint : world :=
  World (fun _ url =>
           if String.eqb url "https://www.omv.com/impressum"
           then Page long_text
           else Failed "timeout of 5000ms exceeded")
        (fun _ => "2026-02-24T17:00:00.000Z")
        125000.

(** A network on which every request fails. *)
Definition unreachable : world :=
  World (fun _ _ => Failed "getaddrinfo ENOTFOUND")
        (fun _ => "2026-02-24T17:00:00.000Z")
        125000.

(** A tender source that answers [null]. *)
Definition null_tender (company : loc) (lookbackMonths : Z) : M value :=
  mret VNull.

(** U+00A0 (no-break space), U+2009 (thin space) and U+00E9 (e with acute
    accent). *)
Definition nbsp : string :=
  String (ascii_of_N 194) (String (ascii_of_N 160) "").

Definition thin_space : string :=
  String (ascii_of_N 226) (String (ascii_of_N 128) (String (ascii_of_N 137) "")).

Definition e_acute : string :=
  String (ascii_of_N 195) (String (ascii_of_N 169) "").

(** A heap that holds the first seed company at reference 1. *)
Definition omv : obj :=
  seedCompany 1 "OMV Aktiengesellschaft" "Energy" "Vienna" 62500000000
    "https://www.omv.com".

Definition omv_state : state := State {[ 1%positive := omv ]} [] [] [].

(** A company whose record has no [website_url]. *)
Definition no_site : obj := <["company_name" := VStr "Porr AG"]> ∅.

Definition no_site_state : state := State {[ 1%positive := no_site ]} [] [] [].

(** An enrichment that fails for the company at reference 2, and a tender
    source that is down. *)
Definition flaky_enrich (w : world) (company : loc) : M loc :=
  if (company =? 2)%positive then throw "getaddrinfo ENOTFOUND"
  else enrichCompanyContact w company.

Definition failing_tender (company : loc) (lookbackMonths : Z) : M value :=
  throw "Request failed with status code 503".

(** One company, tenders included, concurrency 5: the state in which the
    tender task of the company runs. *)
Definition tender_running : Scheduler.sched :=
  Scheduler.Sched (Scheduler.Awaiting Scheduler.TaskC 0) []
    [(Scheduler.TaskC, 0%nat)] [(Scheduler.TaskB, 0%nat)] 1.

(** * Properties *)

(** ** The model at work *)

Example email_match :
  js_match emailRegex "Mail: office@omv.com, or a.b-c@x-y.co.at! @no.pe x@y.z"
  = ["office@omv.com"; "a.b-c@x-y.co.at"].
Proof. vm_compute. reflexivity. Qed.

Example phone_match :
  js_match phoneRegex "Tel +43 1 40440-0 Fax 01 4044027900 and 0664-1234567"
  = ["+43 1 40440"; "01 404402790"; "0664-1234567"].
Proof. vm_compute. reflexivity. Qed.

Example chars_utf8 :
  chars ("a" +:+ e_acute +:+ thin_space +:+ "b") = ["a"; e_acute; thin_space; "b"].
Proof. vm_compute. reflexivity. Qed.

Example phone_match_spaces :
  js_match phoneRegex
    ("+43" +:+ nbsp +:+ "1" +:+ thin_space +:+ "40440, 0" +:+ e_acute +:+ "1")
  = ["+43" +:+ nbsp +:+ "1" +:+ thin_space +:+ "40440"].
Proof. vm_compute. reflexivity. Qed.

Example email_match_accent :
  js_match emailRegex (e_acute +:+ "ric@omv.com, " +:+ thin_space +:+ "x@y.at")
  = ["ric@omv.com"; "x@y.at"].
Proof. vm_compute. reflexivity. Qed.

Example set_order : js_Set ["b"; "a"; "b"; "c"; "a"] = ["b"; "a"; "c"].
Proof. vm_compute. reflexivity. Qed.

Example slice_negative : js_slice [1; 2; 3] 0 (-1) = [1; 2].
Proof. reflexivity. Qed.

Example includes_imprint :
  (fun p => includes "imprint" p || includes "impressum" p) <$> pagesToScrape
  = [false; false; false; true; true; false; false].
Proof. reflexivity. Qed.

(** A push that throws in the middle of the body of the loop: the mail
    address was pushed, the phone numbers and the imprint URL are not
    there. *)
Example push_throws_midway :
  js_match phoneRegex "a@omv.com, 011, 022, 033" = ["011"; "022"; "033"] ∧
  (scrapContactPages two_arguments (VStr "https://www.omv.com") empty_state).1
  = Ok (ContactInfo ["a@omv.com"] [] "" "").
Proof. vm_compute. split; reflexivity. Qed.

(** A run with the default input on a site whose imprint page alone
    answers: three companies, seven requests each. *)
Example main_default_run :
  let r := main imprint_only None empty_state in
  r.1 = Ok tt ∧
  (fun o : obj => o !! "company_name") <$> dataset r.2 =
    [ Some (VStr "OMV Aktiengesellschaft"); Some (VStr "Voestalpine AG");
      Some (VStr "Erste Group Bank AG") ] ∧
  (fun o : obj => o !! "emails") <$> dataset r.2 =
    [ Some (VArr [VStr "office@omv.com"]); Some (VArr []); Some (VArr []) ] ∧
  (fun o : obj => o !! "imprint_url") <$> dataset r.2 =
    [ Some (VStr "https://www.omv.com/impressum"); Some (VStr "");
      Some (VStr "") ] ∧
  (fun o : obj => o !! "tender_data") <$> dataset r.2 =
    [ Some emptyTenderData; Some emptyTenderData; Some emptyTenderData ] ∧
  length (requests r.2) = 21%nat.
Proof. vm_compute. repeat split. Qed.

(** The same run when the enrichment of the second company throws and the
    tender source is down: the second company is not in the dataset, the
    others carry the fallback tender data. *)
Example main_flaky_run :
  let r := main_with imprint_only (flaky_enrich imprint_only) failing_tender
             None empty_state in
  r.1 = Ok tt ∧
  (fun o : obj => o !! "company_name") <$> dataset r.2 =
    [ Some (VStr "OMV Aktiengesellschaft"); Some (VStr "Erste Group Bank AG") ] ∧
  (fun o : obj => o !! "tender_data") <$> dataset r.2 =
    [ Some fallbackTenderData; Some fallbackTenderData ] ∧
  length (requests r.2) = 14%nat.
Proof. vm_compute. repeat split. Qed.

(** A concurrency below 1 is refused by the queue before anything runs. *)
Example main_zero_concurrency :
  let r := main imprint_only
             (Some (Input None None None None (Some 0%Z) None None)) empty_state in
  r.1 = Throw "Expected `concurrency` to be a number from 1 and up" ∧
  requests r.2 = [] ∧ dataset r.2 = [].
Proof. vm_compute. repeat split. Qed.

(** ** Deduplication *)

Lemma elem_of_keep_first (x : string) (l : list string) :
  x ∈ keep_first l ↔ x ∈ l.
Proof.
  induction l as [|y r IH]; simpl; [done|].
  rewrite !elem_of_cons, list_elem_of_filter, IH.
  destruct (decide (x = y)); naive_solver.
Qed.

Lemma NoDup_keep_first (l : list string) : NoDup (keep_first l).
Proof.
  induction l as [|y r IH]; simpl; constructor.
  - rewrite list_elem_of_filter. naive_solver.
  - by apply NoDup_filter.
Qed.

(** Inserting a list into a set that holds [acc] already. *)
Lemma fold_set_add (l acc : list string) :
  fold_left set_add l acc = acc ++ filter (fun y => y ∉ acc) (keep_first l).
Proof.
  revert acc. induction l as [|x r IH]; intros acc; simpl.
  - by rewrite filter_nil, app_nil_r.
  - rewrite IH. unfold set_add. case_bool_decide as Hx.
    + rewrite filter_cons_False by tauto.
      rewrite list_filter_filter. f_equal.
      apply list_filter_iff. intros y. naive_solver.
    + rewrite filter_cons_True by done.
      rewrite <- app_assoc. simpl. do 2 f_equal.
      rewrite list_filter_filter.
      apply list_filter_iff. intros y.
      rewrite elem_of_app, list_elem_of_singleton. tauto.
Qed.

Lemma js_Set_keep_first (l : list string) : js_Set l = keep_first l.
Proof.
  unfold js_Set. rewrite fold_set_add. simpl.
  induction (keep_first l) as [|y r IH]; [done|].
  rewrite filter_cons_True by apply not_elem_of_nil. by f_equal.
Qed.

Lemma elem_of_js_Set (x : string) (l : list string) : x ∈ js_Set l ↔ x ∈ l.
Proof. rewrite js_Set_keep_first. apply elem_of_keep_first. Qed.

(** ** The sweep over the candidate pages *)

Ltac unfold_M :=
  unfold mbind, mret, M_bind, M_ret, bind, ret, try_catch, throw in *.

Ltac unfold_L :=
  unfold mbind, mret, L_bind, L_ret, bind_L, ret_L, try_catch_L, throw_L, lift,
    the_contactInfo, set_emails, set_phones, set_imprint_url in *.

(** One turn of the loop: the request is issued, nothing escapes, and the
    contact data are what the body had written when it ended or threw. *)
Lemma scrapPage_eq w v path c s :
  scrapPage w v path c s =
  (Ok tt,
   after_page w (js_concat v path) path
     (fetch w (length (requests s)) (js_concat v path)) c,
   with_requests s [js_concat v path]).
Proof.
  unfold scrapPage, push_emails, push_phones, spread, axios_get_text.
  unfold after_page, pushed_emails, pushed_phones, fits, with_requests.
  unfold_L. destruct c as [es ps a u]. cbn [emails phones address imprint_url].
  destruct (fetch w _ _) as [e|text]; [by rewrite !app_nil_r|].
  destruct (N.of_nat (length (js_match emailRegex text)) <=? _)%N;
    [|by rewrite !app_nil_r].
  destruct (N.of_nat (length (js_match phoneRegex text)) <=? _)%N;
    cbn [andb emails phones address imprint_url].
  - by destruct (includes "imprint" path || includes "impressum" path).
  - by rewrite app_nil_r.
Qed.

Lemma for_each_cons {A} (x : A) (r : list A) (body : A → L unit) c s :
  for_each (x :: r) body c s =
  match body x c s with
  | (Ok _, c', s') => for_each r body c' s'
  | (Throw e, c', s') => (Throw e, c', s')
  end.
Proof. reflexivity. Qed.

Lemma sweep_spec w v paths c s :
  for_each paths (scrapPage w v) c s =
  (Ok tt, swept w v (length (requests s)) paths c,
   with_requests s (js_concat v <$> paths)).
Proof.
  revert c s. induction paths as [|p r IH]; intros c s.
  - unfold with_requests. simpl. rewrite app_nil_r. by destruct s.
  - rewrite for_each_cons, scrapPage_eq, IH.
    unfold with_requests. cbn [heap log requests dataset swept fmap list_fmap].
    by rewrite length_app, Nat.add_1_r, <- app_assoc.
Qed.

Lemma responses_lookup w n urls i u :
  urls !! i = Some u → responses w n urls !! i = Some (fetch w (n + i) u).
Proof.
  revert n i. induction urls as [|u' r IH]; intros n [|i] H; simplify_eq/=.
  - by rewrite Nat.add_0_r.
  - rewrite (IH (S n) i) by done. do 2 f_equal. lia.
Qed.

Lemma responses_take w n urls k :
  responses w n (take k urls) = take k (responses w n urls).
Proof.
  revert n k. induction urls as [|u r IH]; intros n [|k]; simpl; try done.
  by rewrite IH.
Qed.

(** The loop only appends to the two lists, and leaves the address alone. *)
Lemma swept_spec w v n paths c :
  emails (swept w v n paths c) =
    emails c ++ flat_map (pushed_emails w) (responses w n (js_concat v <$> paths)) ∧
  phones (swept w v n paths c) =
    phones c ++ flat_map (pushed_phones w) (responses w n (js_concat v <$> paths)) ∧
  address (swept w v n paths c) = address c.
Proof.
  revert n c. induction paths as [|p r IH]; intros n c.
  - simpl. by rewrite !app_nil_r.
  - cbn [swept fmap list_fmap responses flat_map].
    destruct (IH (S n) (after_page w (js_concat v p) p (fetch w n (js_concat v p)) c))
      as (-> & -> & ->).
    unfold after_page. cbn [emails phones address]. by rewrite <- !app_assoc.
Qed.

(** The imprint URL is the URL of the last imprint page whose turn of the
    loop ran to its end. *)
Lemma swept_imprint w v n paths c :
  imprint_url (swept w v n paths c) =
  imprint_after w v paths (responses w n (js_concat v <$> paths)) (imprint_url c).
Proof.
  revert n c. induction paths as [|p r IH]; intros n c; [done|].
  cbn [swept fmap list_fmap responses imprint_after]. rewrite IH.
  unfold after_page, page_done. cbn [imprint_url].
  by destruct (fetch w n (js_concat v p)) as [e|text];
    [|destruct (fits w _ && fits w _ && _)].
Qed.

(** What one call of [scrapContactPages] does. *)
Lemma scrapContactPages_spec w v s :
  scrapContactPages w v s =
  (Ok (contact_of w v (length (requests s))),
   with_requests s (js_concat v <$> pagesToScrape)).
Proof.
  unfold scrapContactPages, with_contactInfo.
  unfold mbind, L_bind, bind_L at 1. rewrite sweep_spec. reflexivity.
Qed.

Lemma collected_swept w v paths s :
  collected w v paths s =
  swept w v (length (requests s)) paths (ContactInfo [] [] "" "").
Proof. unfold collected. by rewrite sweep_spec. Qed.

Lemma elem_of_flat_map {A B} (f : A → list B) (l : list A) (y : B) :
  y ∈ flat_map f l ↔ ∃ x, x ∈ l ∧ y ∈ f x.
Proof.
  rewrite list_elem_of_In, in_flat_map.
  split; intros (x & Hx & Hy); exists x; by rewrite ?list_elem_of_In in *.
Qed.

Lemma flat_map_take_subseteq {A B} (f : A → list B) (l : list A) (k : nat) (y : B) :
  y ∈ flat_map f (take k l) → y ∈ flat_map f l.
Proof.
  rewrite !elem_of_flat_map. intros (x & Hx & Hy). exists x. split; [|done].
  apply list_elem_of_lookup in Hx as (i & Hi).
  apply lookup_take_Some in Hi as [Hi _]. by eapply list_elem_of_lookup_2.
Qed.

(** When every push of every page has room, all matches of the fetched
    pages are pushed. *)
Lemma pushed_all w rs :
  forallb (within_limit w) rs = true →
  flat_map (pushed_emails w) rs = accumulated emailRegex rs ∧
  flat_map (pushed_phones w) rs = accumulated phoneRegex rs.
Proof.
  unfold accumulated, page_texts.
  induction rs as [|[e|text] rs IH]; [done|exact IH|].
  cbn [forallb within_limit]. intros [[He Hp]%andb_prop Hrs]%andb_prop.
  destruct (IH Hrs) as [IHe IHp].
  cbn [flat_map omap list_omap pushed_emails pushed_phones].
  by rewrite He, Hp, IHe, IHp.
Qed.

Lemma js_concat_inj v : Inj (=) (=) (js_concat v).
Proof.
  intros p q H. unfold js_concat in H. by apply String.app_inj in H.
Qed.

Lemma NoDup_pagesToScrape : NoDup pagesToScrape.
Proof. compute_done. Qed.

Lemma requests_scrapContactPages w v s :
  requests (scrapContactPages w v s).2 =
  requests s ++ (js_concat v <$> pagesToScrape).
Proof. by rewrite scrapContactPages_spec. Qed.

(** *** A page with more matches than the engine takes *)

Lemma chars_head (b : ascii) (r : string) :
  ∃ c cs, chars (String b r) = String b c :: cs.
Proof.
  simpl. destruct (chars r) as [|[|b' c'] cs]; eauto.
  destruct (is_continuation b'); eauto.
Qed.

(** A character ends where a byte that is no continuation byte begins. *)
Lemma chars_cons (a : ascii) (s : string) :
  starts_plain s → chars (String a s) = String a "" :: chars s.
Proof.
  destruct s as [|b r]; [done|]. intros Hb.
  destruct (chars_head b r) as (c & cs & E).
  change (chars (String a (String b r))) with
    (match chars (String b r) with
     | String b c :: cs =>
         if is_continuation b then String a (String b c) :: cs
         else String a "" :: String b c :: cs
     | cs => String a "" :: cs
     end).
  rewrite E. simpl in Hb. by rewrite Hb.
Qed.

Lemma starts_plain_repeat (n : nat) : starts_plain (repeat_string n "011,").
Proof. by destruct n. Qed.

Lemma chars_repeat (n : nat) :
  chars (repeat_string n "011,") = concat (replicate n ["0"; "1"; "1"; ","]).
Proof.
  induction n as [|n IH]; [done|].
  change (repeat_string (S n) "011,") with
    (String "0" (String "1" (String "1" (String "," (repeat_string n "011,"))))).
  rewrite !chars_cons, IH; try done. apply starts_plain_repeat.
Qed.

Lemma chars_long_text (n : nat) :
  chars ("office@omv.com," +:+ repeat_string n "011,") =
  chars "office@omv.com," ++ concat (replicate n ["0"; "1"; "1"; ","]).
Proof.
  change ("office@omv.com," +:+ repeat_string n "011,") with
    (String "o" (String "f" (String "f" (String "i" (String "c" (String "e"
     (String "@" (String "o" (String "m" (String "v" (String "." (String "c"
     (String "o" (String "m" (String "," (repeat_string n "011,")))))))))))))))).
  rewrite !chars_cons, chars_repeat; try done. apply starts_plain_repeat.
Qed.

(** The matches of the page of [long_imprint], whatever the number of
    repetitions. *)
Lemma js_match_long_text (n : nat) :
  js_match emailRegex ("office@omv.com," +:+ repeat_string n "011,")
    = ["office@omv.com"] ∧
  js_match phoneRegex ("office@omv.com," +:+ repeat_string n "011,")
    = replicate n "011".
Proof.
  unfold js_match. rewrite chars_long_text.
  assert (∀ tail,
            match_all emailRegex 0 (chars "office@omv.com," ++ tail) =
            "office@omv.com" :: match_all emailRegex 0 tail) as -> by reflexivity.
  assert (∀ tail,
            match_all phoneRegex 0 (chars "office@omv.com," ++ tail) =
            match_all phoneRegex 0 tail) as -> by reflexivity.
  split; [f_equal|]; induction n as [|n IH]; try reflexivity.
  - exact IH.
  - change (match_all phoneRegex 0 (concat (replicate (S n) ["0"; "1"; "1"; ","])))
      with ("011" :: match_all phoneRegex 0 (concat (replicate n ["0"; "1"; "1"; ","]))).
    by rewrite IH.
Qed.

Lemma long_imprint_responses :
  responses long_imprint 0 (js_concat (VStr "https://www.omv.com") <$> pagesToScrape)
  = [ Failed "timeout of 5000ms exceeded"; Failed "timeout of 5000ms exceeded";
      Failed "timeout of 5000ms exceeded"; Page long_text;
      Failed "timeout of 5000ms exceeded"; Failed "timeout of 5000ms exceeded";
      Failed "timeout of 5000ms exceeded" ].
Proof. reflexivity. Qed.

(** The result of a call in terms of the answers to its requests. *)
Lemma contact_of_responses w v n :
  emails (contact_of w v n) =
    js_Set (flat_map (pushed_emails w)
              (responses w n (js_concat v <$> pagesToScrape))) ∧
  phones (contact_of w v n) =
    js_Set (flat_map (pushed_phones w)
              (responses w n (js_concat v <$> pagesToScrape))) ∧
  imprint_url (contact_of w v n) =
    imprint_after w v pagesToScrape
      (responses w n (js_concat v <$> pagesToScrape)) "".
Proof.
  unfold contact_of. cbn [emails phones imprint_url].
  destruct (swept_spec w v n pagesToScrape (ContactInfo [] [] "" ""))
    as (-> & -> & _).
  by rewrite swept_imprint.
Qed.

(** The imprint page alone answers, and the engine has room for its mail
    addresses and not for its phone numbers. *)
Lemma one_page_over_limit w v text e :
  fits w (js_match emailRegex text) = true →
  fits w (js_match phoneRegex text) = false →
  flat_map (pushed_emails w)
    [Failed e; Failed e; Failed e; Page text; Failed e; Failed e; Failed e]
    = js_match emailRegex text ∧
  flat_map (pushed_phones w)
    [Failed e; Failed e; Failed e; Page text; Failed e; Failed e; Failed e]
    = [] ∧
  imprint_after w v pagesToScrape
    [Failed e; Failed e; Failed e; Page text; Failed e; Failed e; Failed e] ""
    = "" ∧
  accumulated phoneRegex
    [Failed e; Failed e; Failed e; Page text; Failed e; Failed e; Failed e]
    = js_match phoneRegex text.
Proof.
  intros He Hp. unfold pagesToScrape, accumulated, page_texts.
  cbn [flat_map pushed_emails pushed_phones imprint_after page_done app andb
       omap list_omap].
  by rewrite He, Hp, !app_nil_r.
Qed.

(** The engine of [long_imprint] has room for the mail address of the page
    and not for its phone numbers. *)
Lemma long_text_fits :
  fits long_imprint (js_match emailRegex long_text) = true ∧
  fits long_imprint (js_match phoneRegex long_text) = false.
Proof.
  unfold long_text.
  destruct (js_match_long_text (N.to_nat 200000)) as [-> ->].
  unfold fits. by rewrite length_replicate, N2Nat.id.
Qed.

(** C1: [scrapContactPages] never throws and returns the contact data;
    whatever the answers, all candidate paths are requested (in particular
    those after a failed one); whatever the loop had collected after any
    number of pages is in the result, whether the later pages fail at the
    request or at a push; and a fetched page whose matches the engine can
    push has them in the result. *)
Theorem scrapContactPages_tolerates_page_failure
    (w : world) (url : string) (s : state) :
  ∃ (info : contactInfo) (s' : state),
    scrapContactPages w (VStr url) s = (Ok info, s') ∧
    requests s' = requests s ++ ((fun path => url +:+ path) <$> pagesToScrape) ∧
    (∀ i j path path' e,
       pagesToScrape !! i = Some path →
       fetch w (length (requests s) + i) (url +:+ path) = Failed e →
       (i < j)%nat → pagesToScrape !! j = Some path' →
       requests s' !! (length (requests s) + j)%nat = Some (url +:+ path')) ∧
    (∀ k x,
       (x ∈ emails (collected w (VStr url) (take k pagesToScrape) s) →
        x ∈ emails info) ∧
       (x ∈ phones (collected w (VStr url) (take k pagesToScrape) s) →
        x ∈ phones info)) ∧
    (∀ i path text,
       pagesToScrape !! i = Some path →
       fetch w (length (requests s) + i) (url +:+ path) = Page text →
       fits w (js_match emailRegex text) = true →
       (∀ e, e ∈ js_match emailRegex text → e ∈ emails info) ∧
       (fits w (js_match phoneRegex text) = true →
        ∀ p, p ∈ js_match phoneRegex text → p ∈ phones info)).
Proof.
  exists (contact_of w (VStr url) (length (requests s))),
    (with_requests s ((js_concat (VStr url) <$> pagesToScrape))).
  split; [apply scrapContactPages_spec|]. split; [done|].
  unfold contact_of. cbn [emails phones].
  destruct (swept_spec w (VStr url) (length (requests s)) pagesToScrape
              (ContactInfo [] [] "" "")) as (He & Hp & _).
  rewrite He, Hp. cbn [emails phones app]. split; [|split].
  - intros i j path path' e _ _ _ Hj. unfold with_requests. cbn [requests].
    rewrite lookup_app_r by lia.
    replace (length (requests s) + j - length (requests s))%nat with j by lia.
    by rewrite list_lookup_fmap, Hj.
  - intros k x. rewrite collected_swept.
    destruct (swept_spec w (VStr url) (length (requests s)) (take k pagesToScrape)
                (ContactInfo [] [] "" "")) as (-> & -> & _).
    cbn [emails phones app]. rewrite !elem_of_js_Set, fmap_take, responses_take.
    split; apply flat_map_take_subseteq.
  - intros i path text Hi Hfetch Hfe.
    assert (Page text ∈
      responses w (length (requests s)) ((js_concat (VStr url) <$> pagesToScrape)))
      as Hin.
    { apply list_elem_of_lookup. exists i.
      erewrite responses_lookup; [by rewrite <- Hfetch|].
      by rewrite list_lookup_fmap, Hi. }
    split; [|intros Hfp]; intros x Hx; apply elem_of_js_Set, elem_of_flat_map;
      exists (Page text); (split; [done|]).
    + unfold pushed_emails. by rewrite Hfe.
    + unfold pushed_phones. by rewrite Hfe, Hfp.
Qed.

Lemma scrapContactPages_tolerates_page_failure_witness :
  (∃ (info : contactInfo) (s' : state),
     scrapContactPages imprint_only (VStr "https://www.omv.com") empty_state
       = (Ok info, s') ∧
     requests s' !! 4%nat = Some "https://www.omv.com/imprint" ∧
     "office@omv.com" ∈ emails info ∧ "+43 1 40440" ∈ phones info) ∧
  (∃ (info : contactInfo) (s' : state),
     scrapContactPages long_imprint (VStr "https://www.omv.com") empty_state
       = (Ok info, s') ∧
     fits long_imprint (js_match phoneRegex long_text) = false ∧
     requests s' !! 6%nat = Some "https://www.omv.com/ubersicht" ∧
     "office@omv.com" ∈ emails info).
Proof.
  split.
  - destruct (scrapContactPages_tolerates_page_failure imprint_only
                "https://www.omv.com" empty_state)
      as (info & s' & Hrun & _ & Hnext & Hkeep & Hpage).
    exists info, s'. split; [exact Hrun|]. split; [|split].
    + apply (Hnext 0%nat 4%nat "/" "/imprint" "timeout of 5000ms exceeded");
        [reflexivity | reflexivity | lia | reflexivity].
    + apply (Hkeep 4%nat "office@omv.com"). vm_compute.
      apply list_elem_of_here.
    + destruct (Hpage 3%nat "/impressum"
                  "OMV AG, office@omv.com, office@omv.com, Tel +43 1 40440"
                  eq_refl eq_refl eq_refl) as [_ Hp].
      apply Hp; [reflexivity|]. vm_compute. apply list_elem_of_here.
  - destruct (scrapContactPages_tolerates_page_failure long_imprint
                "https://www.omv.com" empty_state)
      as (info & s' & Hrun & Hreq & _ & _ & Hpage).
    exists info, s'. split; [exact Hrun|].
    split; [exact (proj2 long_text_fits)|]. split.
    + rewrite Hreq. reflexivity.
    + destruct (Hpage 3%nat "/impressum" long_text eq_refl eq_refl
                  (proj1 long_text_fits)) as [He _].
      apply He. unfold long_text.
      rewrite (proj1 (js_match_long_text (N.to_nat 200000))).
      apply list_elem_of_here.
Defined.

(** C2: the requests of one call are the website URL followed by each of
    the seven candidate paths, in the order of the list, and nothing else. *)
Theorem scrapContactPages_requests_seven_paths
    (w : world) (url : string) (s : state) :
  requests (scrapContactPages w (VStr url) s).2 =
  requests s ++
    [ url +:+ "/"; url +:+ "/contact"; url +:+ "/kontakt"; url +:+ "/impressum";
      url +:+ "/imprint"; url +:+ "/about"; url +:+ "/ubersicht" ].
Proof. by rewrite requests_scrapContactPages. Qed.

(** C3 (as amended): the returned emails and phones are the strings that
    the loop pushed, page after page, with every repeated string removed
    but its first occurrence, and they have no duplicates; the strings
    pushed are all the matches of the fetched pages when the engine has
    room for the matches of every page in one call. *)
Theorem scrapContactPages_deduplicates (w : world) (url : string) (s : state) :
  ∃ (info : contactInfo) (s' : state),
    scrapContactPages w (VStr url) s = (Ok info, s') ∧
    emails info =
      keep_first
        (flat_map (pushed_emails w)
           (responses w (length (requests s))
              ((fun path => url +:+ path) <$> pagesToScrape))) ∧
    phones info =
      keep_first
        (flat_map (pushed_phones w)
           (responses w (length (requests s))
              ((fun path => url +:+ path) <$> pagesToScrape))) ∧
    NoDup (emails info) ∧ NoDup (phones info) ∧
    (forallb (within_limit w)
       (responses w (length (requests s))
          ((fun path => url +:+ path) <$> pagesToScrape)) = true →
     emails info =
       keep_first
         (accumulated emailRegex
            (responses w (length (requests s))
               ((fun path => url +:+ path) <$> pagesToScrape))) ∧
     phones info =
       keep_first
         (accumulated phoneRegex
            (responses w (length (requests s))
               ((fun path => url +:+ path) <$> pagesToScrape)))).
Proof.
  exists (contact_of w (VStr url) (length (requests s))),
    (with_requests s ((js_concat (VStr url) <$> pagesToScrape))).
  split; [apply scrapContactPages_spec|].
  unfold contact_of. cbn [emails phones].
  destruct (swept_spec w (VStr url) (length (requests s)) pagesToScrape
              (ContactInfo [] [] "" "")) as (-> & -> & _).
  cbn [emails phones app]. rewrite !js_Set_keep_first.
  change (js_concat (VStr url)) with (fun path => url +:+ path).
  repeat split; auto using NoDup_keep_first.
  - by destruct (pushed_all w _ H) as [-> _].
  - by destruct (pushed_all w _ H) as [_ ->].
Qed.

Lemma scrapContactPages_deduplicates_witness :
  ∃ (info : contactInfo) (s' : state),
    scrapContactPages imprint_only (VStr "https://www.omv.com") empty_state
      = (Ok info, s') ∧
    accumulated emailRegex
      (responses imprint_only 0
         ((fun path => "https://www.omv.com" +:+ path) <$> pagesToScrape))
      = ["office@omv.com"; "office@omv.com"] ∧
    emails info = ["office@omv.com"] ∧ phones info = ["+43 1 40440"].
Proof.
  destruct (scrapContactPages_deduplicates imprint_only "https://www.omv.com"
              empty_state)
    as (info & s' & Hrun & _ & _ & _ & _ & Hall).
  destruct Hall as [He Hp]; [reflexivity|].
  exists info, s'. split; [exact Hrun|]. split; [reflexivity|].
  split; [exact He|exact Hp].
Defined.

(** C3 as stated fails for a page with more matches than the engine takes
    as arguments of one call: [push(...phones)] throws, the handler of the
    page swallows the exception, and the phone numbers of a page that was
    fetched are not in the result (the mail address, pushed before, is;
    the imprint URL, set after, is not). *)
Lemma scrapContactPages_drops_long_match_list :
  ∃ (info : contactInfo) (s' : state),
    scrapContactPages long_imprint (VStr "https://www.omv.com") empty_state
      = (Ok info, s') ∧
    fetch long_imprint 3 "https://www.omv.com/impressum" = Page long_text ∧
    emails info = ["office@omv.com"] ∧
    phones info = [] ∧
    imprint_url info = "" ∧
    "011" ∈ accumulated phoneRegex
              (responses long_imprint 0
                 ((fun path => "https://www.omv.com" +:+ path) <$> pagesToScrape)) ∧
    phones info ≠
      keep_first
        (accumulated phoneRegex
           (responses long_imprint 0
              ((fun path => "https://www.omv.com" +:+ path) <$> pagesToScrape))).
Proof.
  destruct long_text_fits as [He Hp].
  destruct (one_page_over_limit long_imprint (VStr "https://www.omv.com")
              long_text "timeout of 5000ms exceeded" He Hp)
    as (Hes & Hps & Hu & Hacc).
  rewrite <- long_imprint_responses in Hes, Hps, Hu, Hacc.
  destruct (contact_of_responses long_imprint (VStr "https://www.omv.com") 0)
    as (Ces & Cps & Cu).
  rewrite Hes in Ces. rewrite Hps in Cps. rewrite Hu in Cu.
  unfold long_text in Ces, Hacc.
  destruct (js_match_long_text (N.to_nat 200000)) as [Me Mp].
  rewrite Me in Ces. rewrite Mp in Hacc. clear He Hp Hes Hps Hu Me Mp.
  assert ("011" ∈ replicate (N.to_nat 200000) "011") as Hin.
  { apply elem_of_replicate. split; [reflexivity|lia]. }
  rewrite <- Hacc in Hin.
  exists (contact_of long_imprint (VStr "https://www.omv.com") 0),
    (with_requests empty_state
       (js_concat (VStr "https://www.omv.com") <$> pagesToScrape)).
  split; [exact (scrapContactPages_spec long_imprint _ empty_state)|].
  split; [reflexivity|]. split; [exact Ces|]. split; [exact Cps|].
  split; [exact Cu|].
  change (fun path => "https://www.omv.com" +:+ path)
    with (js_concat (VStr "https://www.omv.com")).
  split; [exact Hin|].
  rewrite Cps. intros Heq.
  apply elem_of_keep_first in Hin. rewrite <- Heq in Hin.
  exact (proj1 (elem_of_nil _) Hin).
Qed.

(** C6: no URL is requested twice in one call; a request that failed is
    not issued again, even when a second attempt would be answered. *)
Theorem scrapContactPages_never_retries (w : world) (url : string) (s : state) :
  ∃ new : list string,
    requests (scrapContactPages w (VStr url) s).2 = requests s ++ new ∧
    length new = length pagesToScrape ∧
    NoDup new ∧
    (∀ i u e,
       new !! i = Some u →
       fetch w (length (requests s) + i) u = Failed e →
       ∀ j, new !! j = Some u → j = i).
Proof.
  exists ((js_concat (VStr url) <$> pagesToScrape)).
  assert (NoDup ((js_concat (VStr url) <$> pagesToScrape))) as Hnd.
  { apply (NoDup_fmap_2 _ (Inj0 := js_concat_inj _)), NoDup_pagesToScrape. }
  split; [apply requests_scrapContactPages|].
  split; [by rewrite length_fmap|]. split; [done|].
  intros i u e Hi _ j Hj. by eapply NoDup_lookup.
Qed.

Lemma scrapContactPages_never_retries_witness :
  ∃ new : list string,
    requests (scrapContactPages fails_once (VStr "https://www.voestalpine.com")
                empty_state).2 = new ∧
    fetch fails_once 0 "https://www.voestalpine.com/" = Failed "socket hang up" ∧
    fetch fails_once 1 "https://www.voestalpine.com/" = Page "info@voestalpine.com" ∧
    ∀ j, new !! j = Some "https://www.voestalpine.com/" → j = 0%nat.
Proof.
  destruct (scrapContactPages_never_retries fails_once
              "https://www.voestalpine.com" empty_state)
    as (new & Hreq & _ & _ & Honce).
  exists new. split; [exact Hreq|]. split; [reflexivity|]. split; [reflexivity|].
  apply (Honce 0%nat "https://www.voestalpine.com/" "socket hang up").
  - rewrite <- (app_nil_l new). change [] with (requests empty_state).
    rewrite <- Hreq. vm_compute. reflexivity.
  - reflexivity.
Defined.

(** ** The stubs *)

(** C4: [resolveWebsite] returns the empty string for every company name
    and changes nothing; [scrapeTenderData] returns the same empty tender
    data for every company and every lookback. *)
Theorem stubs_return_fixed_data
    (companyName : value) (company : loc) (lookbackMonths : Z) (s : state) :
  resolveWebsite companyName s = (Ok "", s) ∧
  (scrapeTenderData company lookbackMonths s).1 =
    Ok (VObj (list_to_map [ ("open_count", VNum 0); ("closed_count", VNum 0);
                            ("tenders", VArr []); ("last_tender_date", VNull) ])).
Proof. split; reflexivity. Qed.

(** ** The seed list and [scrapeTopCompanies] *)

Lemma js_slice_fmap {A B} (f : A → B) (l : list A) (a b : Z) :
  js_slice (f <$> l) a b = f <$> js_slice l a b.
Proof. unfold js_slice. by rewrite length_fmap, fmap_take, fmap_drop. Qed.

Lemma js_slice_prefix {A} (l : list A) (n : Z) :
  (0 ≤ n)%Z → js_slice l 0 n = take (Z.to_nat (Z.min n (Z.of_nat (length l)))) l.
Proof.
  intros Hn. unfold js_slice, clamp_index.
  change (0 <? 0)%Z with false. cbv iota.
  destruct (Z.ltb_spec n 0); [lia|].
  replace (Z.to_nat (Z.min 0 (Z.of_nat (length l)))) with 0%nat by lia.
  simpl drop. f_equal. lia.
Qed.

Lemma js_slice_from_end {A} (l : list A) (n : Z) :
  (n < 0)%Z → js_slice l 0 n = take (Z.to_nat (Z.of_nat (length l) + n)) l.
Proof.
  intros Hn. unfold js_slice, clamp_index.
  change (0 <? 0)%Z with false. cbv iota.
  destruct (Z.ltb_spec n 0); [|lia].
  replace (Z.to_nat (Z.min 0 (Z.of_nat (length l)))) with 0%nat by lia.
  simpl drop. f_equal. lia.
Qed.

(** Creating the objects of a list one after the other: the new references
    hold the objects, the objects that were there are left alone, and only
    the heap matters. *)
Lemma alloc_all_spec (os : list obj) (h : gmap loc obj) :
  ∃ (ls : list loc) (h' : gmap loc obj),
    (∀ lg rq ds,
       alloc_all os (State h lg rq ds) = (Ok ls, State h' lg rq ds)) ∧
    h ⊆ h' ∧
    (fun l => h' !! l) <$> ls = Some <$> os.
Proof.
  revert h. induction os as [|o r IH]; intros h.
  - by exists [], h.
  - set (l := fresh (dom h)).
    destruct (IH (<[l:=o]> h)) as (ls & h' & Hrun & Hsub & Hobjs).
    assert (h !! l = None) as Hfresh by apply not_elem_of_dom, is_fresh.
    exists (l :: ls), h'. split; [|split].
    + intros lg rq ds. simpl alloc_all.
      unfold mbind, M_bind, bind, alloc at 1. cbv zeta.
      unfold set_heap. cbn [heap log requests dataset]. fold l.
      by rewrite Hrun.
    + etrans; [|exact Hsub]. by apply insert_subseteq.
    + rewrite !fmap_cons, Hobjs. f_equal.
      eapply lookup_weaken; [|exact Hsub]. apply lookup_insert_eq.
Qed.

Lemma scrapeTopCompanies_spec (limit : Z) (s : state) :
  ∃ (ls : list loc) (h' : gmap loc obj),
    (fun l => h' !! l) <$> ls = Some <$> seedCompanies ∧
    heap s ⊆ h' ∧
    ∀ strategy,
      scrapeTopCompanies strategy limit s =
        (Ok (js_slice ls 0 limit),
         State h'
           (log s ++ [(LInfo, "Scraping top " +:+ pretty limit +:+
                              " companies by " +:+ strategy)])
           (requests s) (dataset s)).
Proof.
  destruct (alloc_all_spec seedCompanies (heap s)) as (ls & h' & Hrun & Hsub & Hobjs).
  exists ls, h'. split; [done|]. split; [done|]. intros strategy.
  unfold scrapeTopCompanies, getSeedCompaniesAustria, log_info, log_line.
  unfold try_catch, mbind, M_bind, bind. cbv beta iota.
  by rewrite Hrun.
Qed.

(** C5 (as amended): [scrapeTopCompanies] never throws; for a limit that is
    not negative it returns the first [min limit 3] seed companies, in seed
    order; for a negative limit [slice] counts from the end of the list and
    the first [3 + limit] are returned (none when that is negative); the
    companies returned do not depend on the strategy. *)
Theorem scrapeTopCompanies_returns_seed_prefix
    (strategy : string) (limit : Z) (s : state) :
  ∃ (companies : list loc) (s' : state),
    scrapeTopCompanies strategy limit s = (Ok companies, s') ∧
    ((0 ≤ limit)%Z →
       (fun c => heap s' !! c) <$> companies =
       Some <$> take (Z.to_nat (Z.min limit 3)) seedCompanies) ∧
    ((limit < 0)%Z →
       (fun c => heap s' !! c) <$> companies =
       Some <$> take (Z.to_nat (3 + limit)) seedCompanies) ∧
    (∀ strategy', ∃ s'',
       scrapeTopCompanies strategy' limit s = (Ok companies, s'') ∧
       heap s'' = heap s').
Proof.
  destruct (scrapeTopCompanies_spec limit s) as (ls & h' & Hobjs & _ & Hrun).
  eexists _, _. split; [apply Hrun|]. cbn [heap].
  rewrite <- js_slice_fmap, Hobjs, js_slice_fmap.
  split; [|split].
  - intros Hl. by rewrite js_slice_prefix.
  - intros Hl. by rewrite js_slice_from_end.
  - intros strategy'. eexists. split; [apply Hrun|done].
Qed.

Lemma scrapeTopCompanies_returns_seed_prefix_witness :
  (∃ (companies : list loc) (s' : state),
     scrapeTopCompanies "revenue" 2 empty_state = (Ok companies, s') ∧
     (fun c => heap s' !! c) <$> companies = Some <$> take 2 seedCompanies) ∧
  (∃ (companies : list loc) (s' : state),
     scrapeTopCompanies "employees" (-2) empty_state = (Ok companies, s') ∧
     (fun c => heap s' !! c) <$> companies = Some <$> take 1 seedCompanies).
Proof.
  split.
  - destruct (scrapeTopCompanies_returns_seed_prefix "revenue" 2 empty_state)
      as (companies & s' & Hrun & Hprefix & _).
    exists companies, s'. split; [exact Hrun|]. apply Hprefix. lia.
  - destruct (scrapeTopCompanies_returns_seed_prefix "employees" (-2) empty_state)
      as (companies & s' & Hrun & _ & Hend & _).
    exists companies, s'. split; [exact Hrun|]. apply Hend. lia.
Defined.

(** C5 as stated fails for a negative limit: with limit [-1] two companies
    are returned, not the first [min (-1) 3] (which are none). *)
Lemma scrapeTopCompanies_negative_limit :
  ∃ (companies : list loc) (s' : state),
    scrapeTopCompanies "revenue" (-1) empty_state = (Ok companies, s') ∧
    (fun c => heap s' !! c) <$> companies = Some <$> take 2 seedCompanies ∧
    (fun c => heap s' !! c) <$> companies ≠
      Some <$> take (Z.to_nat (Z.min (-1) 3)) seedCompanies.
Proof.
  destruct (scrapeTopCompanies_spec (-1) empty_state)
    as (ls & h' & Hobjs & _ & Hrun).
  eexists _, _. split; [apply Hrun|]. cbn [heap].
  rewrite <- js_slice_fmap, Hobjs, js_slice_fmap.
  rewrite js_slice_from_end by lia. split; [reflexivity|].
  intros H. apply (f_equal length) in H. rewrite !length_fmap in H.
  discriminate H.
Qed.

(** ** [enrichCompanyContact] *)

Lemma bind_run {A B} (m : M A) (k : A → M B) (s s' : state) (a : A) :
  m s = (Ok a, s') → (m ≫= k) s = k a s'.
Proof. unfold mbind, M_bind, bind. by intros ->. Qed.

Lemma get_field_eq (l : loc) (k : string) (o : obj) (s : state) :
  heap s !! l = Some o →
  get_field l k s = (Ok (default VUndefined (o !! k)), s).
Proof. unfold get_field. by intros ->. Qed.

Lemma set_field_eq (l : loc) (k : string) (v : value) (o : obj) (s : state) :
  heap s !! l = Some o →
  set_field l k v s = (Ok tt, set_heap (<[l := <[k := v]> o]> (heap s)) s).
Proof.
  intros Hl. unfold set_field. do 2 f_equal. apply map_eq. intros l0.
  rewrite lookup_alter, lookup_insert.
  case_decide; simplify_eq; [by rewrite Hl|done].
Qed.

Lemma js_or_string (x : string) : js_or (VStr x) (VStr "") = VStr x.
Proof.
  unfold js_or, truthy. destruct (String.eqb_spec x ""); by simplify_eq/=.
Qed.

Lemma js_or_array (l : list value) (d : value) : js_or (VArr l) d = VArr l.
Proof. reflexivity. Qed.

Lemma read_obj_eq (l : loc) (o : obj) (s : state) :
  heap s !! l = Some o → read_obj l s = (Ok o, s).
Proof. unfold read_obj. by intros ->. Qed.

Lemma bind_ret {A B} (a : A) (k : A → M B) (s : state) :
  (mret a ≫= k) s = k a s.
Proof. reflexivity. Qed.

Lemma enrichCompanyContact_spec w (l : loc) (o : obj) (s : state) :
  heap s !! l = Some o →
  ∃ (o' : obj) (rq : list string),
    enrichCompanyContact w l s =
      (Ok (fresh (dom (heap s))),
       State (<[fresh (dom (heap s)) := o']> (heap s)) (log s)
         (requests s ++ rq) (dataset s)) ∧
    if truthy (default VUndefined (o !! "website_url"))
    then o' = with_contact
                (contact_of w (default VUndefined (o !! "website_url"))
                   (length (requests s))) o ∧
         rq = (js_concat (default VUndefined (o !! "website_url")) <$> pagesToScrape)
    else o' = <["website_url" := VStr ""]> o ∧ rq = [].
Proof.
  intros Hl. destruct s as [h lg rq ds]. cbn [heap log requests dataset] in *.
  remember (fresh (dom h)) as l' eqn:El'.
  remember (default VUndefined (o !! "website_url")) as url eqn:Eurl.
  unfold enrichCompanyContact.
  rewrite (bind_run _ _ _ _ _ (read_obj_eq l o (State h lg rq ds) Hl)).
  rewrite (bind_run _ _ _ (set_heap (<[l':=o]> h) (State h lg rq ds)) l')
    by (by rewrite El').
  unfold set_heap. cbn [heap log requests dataset].
  rewrite (bind_run _ _ _ _ _
             (get_field_eq l' "website_url" o (State (<[l':=o]> h) lg rq ds)
                (lookup_insert_eq _ _ _))).
  rewrite <- Eurl.
  destruct (truthy url) eqn:Hurl; cbn [negb].
  - rewrite bind_ret.
    erewrite bind_run; [|apply get_field_eq, lookup_insert_eq].
    rewrite <- Eurl, Hurl.
    pose proof (scrapContactPages_spec w url (State (<[l':=o]> h) lg rq ds))
      as Hrun.
    cbn [requests] in Hrun.
    exists (with_contact (contact_of w url (length rq)) o),
      (js_concat url <$> pagesToScrape).
    split; [|done].
    erewrite bind_run; [reflexivity|].
    erewrite bind_run; [|exact Hrun].
    unfold with_requests, with_contact. cbn [heap log requests dataset].
    repeat (erewrite bind_run; [|apply set_field_eq, lookup_insert_eq];
            unfold set_heap; cbn [heap log requests dataset];
            rewrite insert_insert_eq, ?js_or_string, ?js_or_array).
    erewrite set_field_eq by apply lookup_insert_eq.
    unfold set_heap. cbn [heap log requests dataset].
    by rewrite insert_insert_eq.
  - exists (<["website_url" := VStr ""]> o), []. split; [|done].
    rewrite app_nil_r.
    erewrite bind_run; cycle 1.
    { erewrite bind_run; [|apply get_field_eq, lookup_insert_eq].
      erewrite bind_run; [|reflexivity].
      apply set_field_eq, lookup_insert_eq. }
    unfold set_heap. cbn [heap log requests dataset]. rewrite insert_insert_eq.
    erewrite bind_run; [|apply get_field_eq, lookup_insert_eq].
    by rewrite lookup_insert_eq.
Qed.

(** C9: the result of [enrichCompanyContact] is a new object; the input
    object and every other object of the heap are as before; every
    property of the input other than [website_url], [emails], [phones],
    [address] and [imprint_url] has the same value in the result (so
    [rank], [company_name], [industry], [hq_city], [metric_type] and
    [metric_value] have); a truthy [website_url] is kept and the four
    contact properties are written, a falsy or absent one is overwritten
    (with the empty string of the resolver) and nothing else changes. *)
Theorem enrichCompanyContact_frame
    (w : world) (company : loc) (o : obj) (s : state)
    (Hcompany : heap s !! company = Some o) :
  ∃ (enriched : loc) (o' : obj) (s' : state),
    enrichCompanyContact w company s = (Ok enriched, s') ∧
    enriched ≠ company ∧
    heap s' !! enriched = Some o' ∧
    heap s' !! company = Some o ∧
    (∀ l, l ≠ enriched → heap s' !! l = heap s !! l) ∧
    (∀ k, k ∉ ["website_url"; "emails"; "phones"; "address"; "imprint_url"] →
          o' !! k = o !! k) ∧
    (∀ k, k ∈ ["rank"; "company_name"; "industry"; "hq_city"; "metric_type";
               "metric_value"] → o' !! k = o !! k) ∧
    (truthy (default VUndefined (o !! "website_url")) = true →
       o' !! "website_url" = o !! "website_url" ∧
       (∃ es ps, o' !! "emails" = Some (VArr es) ∧ o' !! "phones" = Some (VArr ps)) ∧
       (∃ a u, o' !! "address" = Some (VStr a) ∧ o' !! "imprint_url" = Some (VStr u))) ∧
    (truthy (default VUndefined (o !! "website_url")) = false →
       o' !! "website_url" = Some (VStr "") ∧
       ∀ k, k ≠ "website_url" → o' !! k = o !! k).
Proof.
  destruct (enrichCompanyContact_spec w company o s Hcompany)
    as (o' & rq & Hrun & Hcase).
  assert (fresh (dom (heap s)) ≠ company) as Hne.
  { intros E. apply (is_fresh (dom (heap s))). rewrite E.
    apply elem_of_dom. by exists o. }
  eexists _, o', _. split; [exact Hrun|]. cbn [heap].
  split; [done|]. split; [apply lookup_insert_eq|].
  split; [by rewrite lookup_insert_ne|].
  split; [by intros l Hl; rewrite lookup_insert_ne|].
  assert (∀ k, k ∉ ["website_url"; "emails"; "phones"; "address"; "imprint_url"] →
               o' !! k = o !! k) as Hframe.
  { intros k Hk.
    rewrite !not_elem_of_cons in Hk. destruct Hk as (?&?&?&?&?&_).
    destruct (truthy _).
    - destruct Hcase as [-> _]. unfold with_contact.
      by rewrite !lookup_insert_ne.
    - destruct Hcase as [-> _]. by rewrite lookup_insert_ne. }
  split; [exact Hframe|]. split.
  { intros k Hk. apply Hframe. intros Hin.
    apply list_elem_of_In in Hk, Hin. simpl in Hk, Hin.
    intuition (subst; discriminate). }
  split; intros Hurl; rewrite Hurl in Hcase.
  - destruct Hcase as [-> _]. unfold with_contact.
    split; [by rewrite !lookup_insert_ne|].
    split; [eexists _, _|eexists _, _]; split;
      repeat (rewrite lookup_insert_eq || rewrite lookup_insert_ne by done);
      reflexivity.
  - destruct Hcase as [-> _]. split; [apply lookup_insert_eq|].
    intros k Hk. by rewrite lookup_insert_ne.
Qed.

Lemma enrichCompanyContact_frame_witness :
  (∃ (enriched : loc) (o' : obj) (s' : state),
     enrichCompanyContact imprint_only 1%positive omv_state = (Ok enriched, s') ∧
     enriched ≠ 1%positive ∧
     heap s' !! 1%positive = Some omv ∧
     o' !! "company_name" = Some (VStr "OMV Aktiengesellschaft") ∧
     o' !! "website_url" = Some (VStr "https://www.omv.com")) ∧
  (∃ (enriched : loc) (o' : obj) (s' : state),
     enrichCompanyContact imprint_only 1%positive no_site_state = (Ok enriched, s') ∧
     heap s' !! enriched = Some o' ∧
     o' !! "website_url" = Some (VStr "") ∧
     o' !! "company_name" = Some (VStr "Porr AG") ∧
     o' !! "emails" = None).
Proof.
  split.
  - destruct (enrichCompanyContact_frame imprint_only 1%positive omv omv_state)
      as (enriched & o' & s' & Hrun & Hne & _ & Hin & _ & _ & Hsix & Htruthy & _).
    { reflexivity. }
    exists enriched, o', s'. split; [exact Hrun|]. split; [exact Hne|].
    split; [exact Hin|]. split.
    + rewrite (Hsix "company_name"); [reflexivity|]. compute_done.
    + destruct Htruthy as [-> _]; reflexivity.
  - destruct (enrichCompanyContact_frame imprint_only 1%positive no_site
                no_site_state)
      as (enriched & o' & s' & Hrun & _ & Hout & _ & _ & _ & _ & _ & Hfalsy).
    { reflexivity. }
    destruct Hfalsy as [Hurl Hrest]; [reflexivity|].
    exists enriched, o', s'. split; [exact Hrun|]. split; [exact Hout|].
    split; [exact Hurl|].
    split; (rewrite Hrest; [reflexivity|discriminate]).
Defined.

(** ** The handlers of [main] *)

Section Handlers.

Variable w : world.
Variable enrich : loc -> M loc.
Variable tender : loc -> Z -> M value.
Variable queue : PQueue.

Lemma enrichTask_throw acc c s e s1 :
  enrich c s = (Throw e, s1) →
  enrichTask enrich acc c s =
    (Ok acc,
     logged LError ("Error enriching " +:+ to_string (field s1 c "company_name")
                    +:+ ": " +:+ e) s1).
Proof. intros H. unfold enrichTask, try_catch, mbind, M_bind, bind. by rewrite H. Qed.

Lemma enrichTask_ok acc c s c' s1 :
  enrich c s = (Ok c', s1) →
  enrichTask enrich acc c s =
    (Ok (acc ++ [c']),
     logged LInfo ("Enriched: " +:+ to_string (field s1 c' "company_name")) s1).
Proof. intros H. unfold enrichTask, try_catch, mbind, M_bind, bind. by rewrite H. Qed.

Lemma for_of_cons {A B} (x : A) (r : list A) (body : B → A → M B) acc s :
  for_of (x :: r) body acc s =
  match body acc x s with
  | (Ok acc', s') => for_of r body acc' s'
  | (Throw e, s') => (Throw e, s')
  end.
Proof. reflexivity. Qed.

(** The loop of TASK B never throws, and what it appends to the array does
    not depend on what the array holds. *)
Lemma contact_loop_acc (l : list loc) (acc : list loc) (s : state) :
  ∃ (ls : list loc) (s' : state),
    for_of l (fun acc c => queue_add queue (enrichTask enrich acc c)) [] s
      = (Ok ls, s') ∧
    for_of l (fun acc c => queue_add queue (enrichTask enrich acc c)) acc s
      = (Ok (acc ++ ls), s').
Proof.
  set (body := fun acc c => queue_add queue (enrichTask enrich acc c)).
  revert acc s. induction l as [|c r IH]; intros acc s.
  - exists [], s. by rewrite app_nil_r.
  - rewrite !for_of_cons.
    destruct (enrich c s) as [[c'|e] s1] eqn:Hc.
    + assert (∀ a, body a c s =
                (Ok (a ++ [c']),
                 logged LInfo ("Enriched: " +:+
                               to_string (field s1 c' "company_name")) s1)) as Hb
        by (intros a; by apply enrichTask_ok).
      rewrite !Hb.
      match goal with |- context [for_of r _ (acc ++ [c']) ?t] =>
        destruct (IH (acc ++ [c']) t) as (ls & s' & H0 & H1);
        destruct (IH ([] ++ [c']) t) as (ls2 & s2 & H2 & H3)
      end.
      rewrite H0 in H2. simplify_eq.
      exists (c' :: ls2), s2. rewrite H1, H3, <- !app_assoc. done.
    + assert (∀ a, body a c s =
                (Ok a,
                 logged LError ("Error enriching " +:+
                                to_string (field s1 c "company_name") +:+
                                ": " +:+ e) s1)) as Hb
        by (intros a; by apply enrichTask_throw).
      rewrite !Hb.
      match goal with |- context [for_of r _ acc ?t] =>
        destruct (IH acc t) as (ls & s' & H0 & H1)
      end.
      exists ls, s'. by rewrite H0, H1.
Qed.

Lemma contactPass_total (l : list loc) (s : state) :
  ∃ (ls : list loc) (s' : state), contactPass enrich queue l s = (Ok ls, s').
Proof.
  destruct (contact_loop_acc l [] s) as (ls & s' & H & _).
  exists ls, s'. unfold contactPass, queue_onIdle, mbind, M_bind, bind.
  by rewrite H.
Qed.

Lemma contactPass_cons_throw c rest s e s1 :
  enrich c s = (Throw e, s1) →
  contactPass enrich queue (c :: rest) s =
  contactPass enrich queue rest
    (logged LError ("Error enriching " +:+ to_string (field s1 c "company_name")
                    +:+ ": " +:+ e) s1).
Proof.
  intros Hc. unfold contactPass, mbind, M_bind, bind. rewrite for_of_cons.
  unfold queue_add at 1. by rewrite (enrichTask_throw _ _ _ _ _ Hc).
Qed.

Lemma contactPass_cons_ok c rest s c' s1 :
  enrich c s = (Ok c', s1) →
  ∃ (ls : list loc) (s' : state),
    contactPass enrich queue rest
      (logged LInfo ("Enriched: " +:+ to_string (field s1 c' "company_name")) s1)
      = (Ok ls, s') ∧
    contactPass enrich queue (c :: rest) s = (Ok (c' :: ls), s').
Proof.
  intros Hc. unfold contactPass, queue_onIdle, mbind, M_bind, bind.
  rewrite for_of_cons. unfold queue_add at 2.
  rewrite (enrichTask_ok _ _ _ _ _ Hc).
  match goal with |- context [for_of rest _ ([] ++ [c']) ?t] =>
    destruct (contact_loop_acc rest ([] ++ [c']) t) as (ls & s' & H0 & H1)
  end.
  exists ls, s'. by rewrite H0, H1.
Qed.

(** *** TASK C *)

Lemma tenderTask_throw lookback c s e s1 :
  tender c lookback s = (Throw e, s1) →
  tenderTask tender lookback c s =
    (Ok tt,
     set_heap
       (alter (fun o => <["tender_data" := fallbackTenderData]> o) c (heap s1))
       (logged LError ("Error fetching tenders for " +:+
                       to_string (field s1 c "company_name") +:+ ": " +:+ e) s1)).
Proof. intros H. unfold tenderTask, try_catch, mbind, M_bind, bind. by rewrite H. Qed.

Lemma tenderTask_total lookback c s :
  ∃ s', tenderTask tender lookback c s = (Ok tt, s').
Proof.
  unfold tenderTask, try_catch, mbind, M_bind, bind.
  destruct (tender c lookback s) as [[td|e] s1]; [|by eexists].
  simpl. destruct td; by eexists.
Qed.

Lemma tender_loop_total lookback (l : list loc) (s : state) :
  ∃ s',
    for_of l (fun _ c => queue_add queue (tenderTask tender lookback c)) tt s
      = (Ok tt, s').
Proof.
  revert s. induction l as [|c r IH]; intros s; [by eexists|].
  rewrite for_of_cons. unfold queue_add at 1.
  destruct (tenderTask_total lookback c s) as (s1 & ->). apply IH.
Qed.

Lemma tenderPass_total lookback (l : list loc) (s : state) :
  ∃ s', tenderPass tender queue lookback l s = (Ok tt, s').
Proof.
  unfold tenderPass, queue_onIdle, mbind, M_bind, bind.
  destruct (tender_loop_total lookback l s) as (s' & ->). by eexists.
Qed.

Lemma tenderPass_cons lookback c rest s s1 :
  tenderTask tender lookback c s = (Ok tt, s1) →
  tenderPass tender queue lookback (c :: rest) s =
  tenderPass tender queue lookback rest s1.
Proof.
  intros H. unfold tenderPass, mbind, M_bind, bind. rewrite for_of_cons.
  unfold queue_add at 1. by rewrite H.
Qed.

(** *** Saving *)

Lemma saveResults_spec (ls : list loc) (s : state) :
  saveResults w ls s =
    (Ok tt,
     State (heap s) (log s) (requests s)
       (dataset s ++ records w (heap s) (length (dataset s)) ls)).
Proof.
  unfold saveResults.
  match goal with |- for_of _ ?b _ _ = _ => set (body := b) end.
  revert s. induction ls as [|c r IH]; intros s.
  - simpl. rewrite app_nil_r. by destruct s.
  - rewrite for_of_cons.
    assert (body tt c s =
            (Ok tt,
             State (heap s) (log s) (requests s)
               (dataset s ++
                  [<["scraped_at" := VStr (clock w (length (dataset s)))]>
                     (default ∅ (heap s !! c))]))) as -> by reflexivity.
    rewrite IH. cbn [heap log requests dataset records].
    by rewrite length_app, Nat.add_1_r, <- app_assoc.
Qed.

End Handlers.

Lemma try_catch_ok {A} (m : M A) (h : string → M A) (s s' : state) (a : A) :
  m s = (Ok a, s') → try_catch m h s = (Ok a, s').
Proof. unfold try_catch. by intros ->. Qed.

(** TASK C, when it is asked for, is the tender pass over the enriched
    companies; it never throws. *)
Lemma tender_block_total tender (b : bool) queue lookback l (s : state) :
  ∃ sC,
    if b then tenderPass tender queue lookback l (at_taskC s) = (Ok tt, sC)
    else sC = s.
Proof.
  destruct b; [|by exists s].
  apply (tenderPass_total tender queue lookback l (at_taskC s)).
Qed.

Lemma tender_block_run tender (b : bool) queue lookback l (s sC : state) :
  (if b then tenderPass tender queue lookback l (at_taskC s) = (Ok tt, sC)
   else sC = s) →
  (if b then
     log_info "=== TASK C: Fetching tender data ===";;
     tenderPass tender queue lookback l
   else mret tt) s = (Ok tt, sC).
Proof.
  destruct b; [|by intros ->].
  intros H. erewrite bind_run; [|reflexivity]. exact H.
Qed.

(** A run of [main] when the queue can be created: the companies of TASK A
    go through the contact pass, the companies that the contact pass
    returns go through the tender pass (when tenders are asked for), and
    one record is pushed for each of them and for no other. *)
Lemma main_with_spec w enrich tender (i : option input) (s : state) :
  (1 ≤ field_or i max_concurrent_requests 5)%Z →
  ∃ (companies : list loc) (sA : state) (enriched : list loc) (sB sC s' : state),
    scrapeTopCompanies (field_or i ranking_strategy "revenue")
      (field_or i top_n 100%Z) (at_taskA i s) = (Ok companies, sA) ∧
    contactPass enrich {| concurrency := field_or i max_concurrent_requests 5%Z |}
      companies (at_taskB companies sA) = (Ok enriched, sB) ∧
    (if field_or i include_tenders true
     then tenderPass tender
            {| concurrency := field_or i max_concurrent_requests 5%Z |}
            (field_or i tender_lookback_months 12%Z) enriched (at_taskC sB)
          = (Ok tt, sC)
     else sC = sB) ∧
    main_with w enrich tender i s = (Ok tt, s') ∧
    heap s' = heap sC ∧
    requests s' = requests sC ∧
    dataset s' = dataset sC ++ records w (heap sC) (length (dataset sC)) enriched ∧
    ∃ line1 line2, log s' = log sC ++ [(LInfo, line1); (LInfo, line2)].
Proof.
  intros Hc.
  destruct (scrapeTopCompanies_spec (field_or i top_n 100%Z) (at_taskA i s))
    as (ls & hA & _ & _ & HA).
  specialize (HA (field_or i ranking_strategy "revenue")).
  match type of HA with _ = (Ok ?cs, ?t) =>
    set (companies := cs) in *; set (sA := t) in * end.
  destruct (contactPass_total enrich
              {| concurrency := field_or i max_concurrent_requests 5%Z |}
              companies (at_taskB companies sA)) as (enriched & sB & HB).
  destruct (tender_block_total tender (field_or i include_tenders true)
              {| concurrency := field_or i max_concurrent_requests 5%Z |}
              (field_or i tender_lookback_months 12%Z) enriched sB) as (sC & HC).
  exists companies, sA, enriched, sB, sC.
  exists (logged LInfo
            ("Successfully scraped " +:+ pretty (length enriched) +:+ " companies")
            (State (heap sC) (log sC ++ [(LInfo, "=== Saving results ===")])
               (requests sC)
               (dataset sC ++ records w (heap sC) (length (dataset sC)) enriched))).
  split; [exact HA|]. split; [exact HB|]. split; [exact HC|].
  split; [|repeat split; cbn [log logged]; eexists _, _; by rewrite <- app_assoc].
  apply tender_block_run in HC.
  unfold main_with. cbv zeta.
  erewrite bind_run; [|reflexivity].
  erewrite bind_run; [|reflexivity].
  erewrite bind_run; cycle 1.
  { unfold new_PQueue.
    destruct (Z.ltb_spec (field_or i max_concurrent_requests 5%Z) 1%Z);
      [lia|reflexivity]. }
  apply try_catch_ok.
  erewrite bind_run; [|reflexivity].
  erewrite bind_run; [|exact HA].
  erewrite bind_run; [|reflexivity].
  erewrite bind_run; [|reflexivity].
  erewrite bind_run; [|exact HB].
  erewrite bind_run; [|exact HC].
  erewrite bind_run; [|reflexivity].
  erewrite bind_run; [|apply saveResults_spec].
  reflexivity.
Qed.

(** C8: the handlers of [main] catch and continue.  When the enrichment of
    a company throws, the contact pass goes on with the remaining companies
    and its result is theirs alone; when it succeeds, the enriched company
    is put before theirs.  When the tender call throws, [tender_data] of
    that company becomes [{open_count: 0, closed_count: 0, tenders: []}] and
    the tender pass goes on with the remaining companies.  Saving pushes
    one record for each company of the list it is given and for no other.
    A run of [main] ends without an exception whatever the two callees do,
    and the records it adds to the dataset are those of the companies that
    the contact pass returned for the companies of TASK A, as the heap
    holds them after the tender pass: a company whose enrichment threw has
    no record, every other company has one. *)
Theorem main_catches_and_continues
    (w : world) (enrich : loc → M loc) (tender : loc → Z → M value)
    (queue : PQueue) (lookback : Z) :
  (∀ c rest s e s1,
     enrich c s = (Throw e, s1) →
     ∃ s2, heap s2 = heap s1 ∧ dataset s2 = dataset s1 ∧
           contactPass enrich queue (c :: rest) s =
           contactPass enrich queue rest s2) ∧
  (∀ c rest s c' s1,
     enrich c s = (Ok c', s1) →
     ∃ s2 ls s3, heap s2 = heap s1 ∧ dataset s2 = dataset s1 ∧
                 contactPass enrich queue rest s2 = (Ok ls, s3) ∧
                 contactPass enrich queue (c :: rest) s = (Ok (c' :: ls), s3)) ∧
  (∀ c rest s e s1 o,
     tender c lookback s = (Throw e, s1) →
     heap s1 !! c = Some o →
     ∃ s2 s3,
       heap s2 =
         <[c := <["tender_data" :=
                    VObj (list_to_map [ ("open_count", VNum 0);
                                        ("closed_count", VNum 0);
                                        ("tenders", VArr []) ])]> o]> (heap s1) ∧
       dataset s2 = dataset s1 ∧
       tenderPass tender queue lookback (c :: rest) s =
       tenderPass tender queue lookback rest s2 ∧
       tenderPass tender queue lookback rest s2 = (Ok tt, s3)) ∧
  (∀ enriched s,
     ∃ s', saveResults w enriched s = (Ok tt, s') ∧
           heap s' = heap s ∧
           dataset s' =
             dataset s ++ records w (heap s) (length (dataset s)) enriched ∧
           length (dataset s') = (length (dataset s) + length enriched)%nat) ∧
  (∀ i s,
     (1 ≤ field_or i max_concurrent_requests 5)%Z →
     ∃ (companies : list loc) (sA : state) (enriched : list loc)
       (sB sC s' : state),
       scrapeTopCompanies (field_or i ranking_strategy "revenue")
         (field_or i top_n 100%Z) (at_taskA i s) = (Ok companies, sA) ∧
       contactPass enrich
         {| concurrency := field_or i max_concurrent_requests 5%Z |}
         companies (at_taskB companies sA) = (Ok enriched, sB) ∧
       (if field_or i include_tenders true
        then tenderPass tender
               {| concurrency := field_or i max_concurrent_requests 5%Z |}
               (field_or i tender_lookback_months 12%Z) enriched (at_taskC sB)
             = (Ok tt, sC)
        else sC = sB) ∧
       main_with w enrich tender i s = (Ok tt, s') ∧
       heap s' = heap sC ∧
       dataset s' =
         dataset sC ++ records w (heap sC) (length (dataset sC)) enriched).
Proof.
  split; [|split; [|split; [|split]]].
  - intros c rest s e s1 Hc. eexists. split; [|split]; cycle 2.
    + by apply contactPass_cons_throw.
    + done.
    + done.
  - intros c rest s c' s1 Hc.
    destruct (contactPass_cons_ok enrich queue c rest s c' s1 Hc)
      as (ls & s' & Hrest & Hall).
    by exists (logged LInfo ("Enriched: " +:+
                               to_string (field s1 c' "company_name")) s1), ls, s'.
  - intros c rest s e s1 o Htd Ho.
    pose proof (tenderTask_throw tender lookback c s e s1 Htd) as Htask.
    match type of Htask with _ = (_, ?t) =>
      destruct (tenderPass_total tender queue lookback rest t) as (s3 & Hrest);
      exists t, s3 end.
    split; [|split; [done|split; [by apply tenderPass_cons|done]]].
    unfold set_heap. cbn [heap]. apply map_eq. intros l.
    rewrite lookup_alter, lookup_insert.
    case_decide; simplify_eq; [by rewrite Ho|done].
  - intros enriched s. eexists. split; [apply saveResults_spec|].
    cbn [heap dataset]. split; [done|]. split; [done|].
    rewrite length_app. f_equal.
    generalize (length (dataset s)). induction enriched as [|c r IH]; intros n;
      [done|]. simpl. by rewrite IH.
  - intros i s Hc.
    destruct (main_with_spec w enrich tender i s Hc)
      as (companies & sA & enriched & sB & sC & s' & HA & HB & HC & Hrun & Hh & _ & Hds & _).
    by exists companies, sA, enriched, sB, sC, s'.
Qed.

Lemma main_catches_and_continues_witness :
  (∃ s2,
     heap s2 = heap omv_state ∧
     contactPass (flaky_enrich imprint_only) {| concurrency := 5 |}
       [2; 1]%positive omv_state =
     contactPass (flaky_enrich imprint_only) {| concurrency := 5 |}
       [1]%positive s2) ∧
  (∃ ls s3,
     contactPass (flaky_enrich imprint_only) {| concurrency := 5 |}
       [1; 2]%positive omv_state = (Ok (2%positive :: ls), s3)) ∧
  (∃ s2 s3,
     heap s2 !! 1%positive =
       Some (<["tender_data" :=
                 VObj (list_to_map [ ("open_count", VNum 0);
                                     ("closed_count", VNum 0);
                                     ("tenders", VArr []) ])]> omv) ∧
     tenderPass failing_tender {| concurrency := 5 |} 12 [1]%positive omv_state
       = (Ok tt, s3)) ∧
  (∃ (companies enriched : list loc) (s' : state),
     length companies = 3%nat ∧ length enriched = 2%nat ∧
     main_with imprint_only (flaky_enrich imprint_only) failing_tender None
       empty_state = (Ok tt, s') ∧
     (fun o : obj => o !! "company_name") <$> dataset s' =
       [ Some (VStr "OMV Aktiengesellschaft"); Some (VStr "Erste Group Bank AG") ] ∧
     (fun o : obj => o !! "tender_data") <$> dataset s' =
       [ Some fallbackTenderData; Some fallbackTenderData ]).
Proof.
  destruct (main_catches_and_continues imprint_only (flaky_enrich imprint_only)
              failing_tender {| concurrency := 5 |} 12)
    as (Hthrow & Hok & Htender & _ & Hmain).
  split; [|split; [|split]].
  - destruct (Hthrow 2%positive [1%positive] omv_state "getaddrinfo ENOTFOUND"
                omv_state eq_refl) as (s2 & Hheap & _ & Hpass).
    exists s2. split; [exact Hheap|exact Hpass].
  - destruct (Hok 1%positive [2%positive] omv_state 2%positive
                (flaky_enrich imprint_only 1%positive omv_state).2)
      as (s2 & ls & s3 & _ & _ & _ & Hpass).
    { vm_compute. reflexivity. }
    exists ls, s3. exact Hpass.
  - destruct (Htender 1%positive [] omv_state
                "Request failed with status code 503" omv_state omv
                eq_refl eq_refl) as (s2 & s3 & Hheap & _ & Hpass & Hrest).
    exists s2, s3. split.
    + rewrite Hheap. apply lookup_insert_eq.
    + rewrite Hpass. exact Hrest.
  - destruct (Hmain None empty_state)
      as (companies & sA & enriched & sB & sC & s' & HA & HB & _ & Hrun & _ & _).
    { unfold field_or. simpl. lia. }
    exists companies, enriched, s'.
    pose proof (f_equal snd HA) as HsA. cbn [snd] in HsA. subst sA.
    apply (f_equal fst) in HA, HB.
    vm_compute in HA. injection HA as <-.
    vm_compute in HB. injection HB as <-.
    split; [reflexivity|]. split; [reflexivity|]. split; [exact Hrun|].
    apply (f_equal snd) in Hrun. cbn [snd] in Hrun. rewrite <- Hrun.
    vm_compute. split; reflexivity.
Defined.

(** ** The input properties that are never read *)

Lemma tenderTask_lookback (lookback lookback' : Z) (company : loc) :
  tenderTask scrapeTenderData lookback company =
  tenderTask scrapeTenderData lookback' company.
Proof. reflexivity. Qed.

Lemma tenderPass_lookback queue (lookback lookback' : Z) (l : list loc) :
  tenderPass scrapeTenderData queue lookback l =
  tenderPass scrapeTenderData queue lookback' l.
Proof. reflexivity. Qed.

(** C10: two runs in the same world and from the same state, whose inputs
    agree on [ranking_strategy], [top_n], [include_tenders] and
    [max_concurrent_requests], end with the same outcome and the same state
    (the same dataset, log and requests), whatever [extract_emails],
    [extract_phones] and [tender_lookback_months] are. *)
Theorem main_independent_of_unread_input
    (w : world) (i1 i2 : input) (s : state) :
  ranking_strategy i1 = ranking_strategy i2 →
  top_n i1 = top_n i2 →
  include_tenders i1 = include_tenders i2 →
  max_concurrent_requests i1 = max_concurrent_requests i2 →
  main w (Some i1) s = main w (Some i2) s ∧
  dataset (main w (Some i1) s).2 = dataset (main w (Some i2) s).2.
Proof.
  intros Hs Hn Ht Hc.
  assert (main w (Some i1) s = main w (Some i2) s) as Hmain; [|by rewrite Hmain].
  assert (∀ A (f : input → option A) (d : A),
            f i1 = f i2 → field_or (Some i1) f d = field_or (Some i2) f d) as Hf.
  { intros A f d H. unfold field_or. simpl. by rewrite H. }
  unfold main, main_with. cbv zeta.
  rewrite (Hf _ _ _ Hs), (Hf _ _ _ Hn), (Hf _ _ _ Ht), (Hf _ _ _ Hc).
  generalize (field_or (Some i1) tender_lookback_months 12%Z)
             (field_or (Some i2) tender_lookback_months 12%Z).
  intros lookback lookback'.
  (* the lookback only reaches [scrapeTenderData], which drops it *)
  reflexivity.
Qed.

Lemma main_independent_of_unread_input_witness :
  main imprint_only
    (Some (Input None (Some 2%Z) None (Some 1%Z) None (Some true) (Some true)))
    empty_state =
  main imprint_only
    (Some (Input None (Some 2%Z) None (Some 36%Z) None (Some false) None))
    empty_state.
Proof.
  apply (main_independent_of_unread_input imprint_only
           (Input None (Some 2%Z) None (Some 1%Z) None (Some true) (Some true))
           (Input None (Some 2%Z) None (Some 36%Z) None (Some false) None)
           empty_state); reflexivity.
Defined.

Section SchedulerProperties.

Import Scheduler.

Variable max_concurrent_requests : Z.
Variable companies : nat.
Variable include_tenders : bool.

Local Abbreviation step := (step max_concurrent_requests companies include_tenders).
Local Abbreviation inv := (inv companies).
Local Abbreviation reachable :=
  (reachable max_concurrent_requests companies include_tenders).

Lemma inv_initial s0 :
  initial max_concurrent_requests = Some s0 → inv s0.
Proof.
  unfold initial. case_match; intros ?; simplify_eq.
  unfold inv, quiet. simpl. repeat split; try done; try lia.
  - by intros ?%elem_of_nil.
  - intros j ?%elem_of_nil. done.
Qed.

Lemma inv_step s s' : inv s → step s s' → inv s'.
Proof.
  intros Hinv Hstep. destruct Hstep; unfold inv, quiet, in_flight in *;
    cbn [at_ waiting running settled enrichedCompanies] in *.
  - (* add *)
    destruct Hinv as ((-> & ->) & Hiff & Hother). split; [|done]. by left.
  - (* the loop ends *)
    destruct Hinv as (Hq & Hiff & Hother). split; [done|]. split; [|done].
    intros j Hj. apply Hiff. lia.
  - (* a task starts *)
    destruct c; try (by destruct Hinv as ((? & ?) & _)).
    destruct Hinv as ([[Hfl Hiff] | [[? ?] _]] & Hother); [|done].
    destruct r as [|? [|]]; simplify_eq/=. split; [|done]. by left.
  - (* a task settles *)
    destruct c.
    + destruct Hinv as ((_ & Hr) & _). by destruct r1.
    + destruct Hinv as ([[Hfl Hiff] | [[_ Hr] _]] & Hother); [|by destruct r1].
      destruct r1 as [|? [|]]; simplify_eq/=.
      destruct r2; simplify_eq/=. split.
      * right. split; [done|]. intros j. rewrite elem_of_cons, Hiff.
        split; [intros [?|?]; simplify_eq; lia|].
        intros Hj. destruct (decide (j = i)) as [->|]; [by left|right; lia].
      * destruct p; unfold other_pass, passB_done in *; cbn [settled] in *.
        -- intros j [?|?]%elem_of_cons; [done|by eapply Hother].
        -- intros j Hj. right. by apply Hother.
    + destruct Hinv as ((_ & Hr) & _). by destruct r1.
    + destruct Hinv as ((_ & Hr) & _). by destruct r1.
  - (* the awaited promise has settled *)
    destruct Hinv as ([[Hfl Hiff] | [Hq Hiff]] & Hother).
    + apply Hiff in H. lia.
    + done.
  - (* the queue is idle *)
    destruct Hinv as (Hq & Hall & Hother).
    destruct p; unfold after; [destruct include_tenders|];
      unfold other_pass, passB_done, count in *;
      cbn [at_ waiting running settled enrichedCompanies] in *.
    + split; [done|]. split; [|done].
      intros j. split; [by intros ?%Hother|lia].
    + done.
    + done.
Qed.

Lemma inv_reachable s : reachable s → inv s.
Proof.
  intros (s0 & Hinit & Hrun). apply inv_initial in Hinit.
  induction Hrun; eauto using inv_step.
Qed.

(** The tasks added and not yet settled are at most the one [main] awaits. *)
Lemma inv_in_flight s :
  inv s →
  in_flight s = [] ∨
  ∃ p i, at_ s = Awaiting p i ∧ in_flight s = [(p, i)] ∧ other_pass companies p s.
Proof.
  unfold inv, quiet, in_flight. destruct s as [c w r d n]. simpl.
  destruct c; try (intros ((-> & ->) & _); by left).
  intros ([[Hfl _] | [[-> ->] _]] & Hother); [|by left].
  right. by exists p, i.
Qed.

(** C7: at any moment of a run at most [max_concurrent_requests] tasks run
    (indeed at most one task is in the queue or running, as every [add] is
    awaited); while a task of TASK C waits, runs or has settled, every task
    of TASK B has settled and none of them waits or runs. *)
Theorem queue_bounds_concurrency (s : sched) :
  reachable s →
  (Z.of_nat (length (running s)) ≤ max_concurrent_requests)%Z ∧
  (length (running s) + length (waiting s) ≤ 1)%nat ∧
  (∀ t, t ∈ running s ++ waiting s → t.1 = TaskC →
        passB_done companies s ∧
        ∀ t', t' ∈ running s ++ waiting s → t'.1 = TaskC) ∧
  (∀ i, (TaskC, i) ∈ settled s → passB_done companies s).
Proof.
  intros Hreach. pose proof (inv_reachable s Hreach) as Hinv.
  assert (1 ≤ max_concurrent_requests)%Z as Hmax.
  { destruct Hreach as (s0 & Hinit & _). unfold initial in Hinit.
    destruct (Z.ltb_spec max_concurrent_requests 1); [done|lia]. }
  assert (length (running s) + length (waiting s) ≤ 1)%nat as Hone.
  { rewrite <- length_app. fold (in_flight s).
    destruct (inv_in_flight s Hinv) as [->|(p & i & _ & -> & _)]; simpl; lia. }
  split; [lia|]. split; [done|]. split.
  - intros t Ht HC. fold (in_flight s) in *.
    destruct (inv_in_flight s Hinv) as [E|(p & i & _ & E & Hother)];
      rewrite E in *; [by apply elem_of_nil in Ht|].
    apply list_elem_of_singleton in Ht as ->. simpl in HC. subst p.
    split; [done|]. by intros t' ->%list_elem_of_singleton.
  - intros i Hi. unfold Scheduler.inv in Hinv. destruct (at_ s) as [p j|p j|p|].
    + destruct Hinv as (_ & _ & Hother). destruct p; [by apply Hother in Hi|done].
    + destruct Hinv as (_ & Hother). destruct p; [by apply Hother in Hi|done].
    + destruct Hinv as (_ & _ & Hother). destruct p; [by apply Hother in Hi|done].
    + by destruct Hinv.
Qed.

End SchedulerProperties.

Lemma tender_running_reachable : Scheduler.reachable 5 1 true tender_running.
Proof.
  eexists. split; [reflexivity|].
  eapply rtc_l; [apply (Scheduler.step_add _ _ _ Scheduler.TaskB 0 [] [] [] 0);
                 simpl; lia|].
  eapply rtc_l; [apply (Scheduler.step_start _ _ _ _ (Scheduler.TaskB, 0%nat)
                          [] [] [] 0); simpl; lia|].
  eapply rtc_l; [apply (Scheduler.step_settle _ _ _ _ (Scheduler.TaskB, 0%nat)
                          [] [] [] [] 0 true)|].
  eapply rtc_l; [apply Scheduler.step_resume; simpl; apply list_elem_of_here|].
  eapply rtc_l; [apply Scheduler.step_loop_end; simpl; lia|].
  eapply rtc_l; [apply Scheduler.step_idle|].
  eapply rtc_l; [apply (Scheduler.step_add _ _ _ Scheduler.TaskC 0 []);
                 simpl; lia|].
  eapply rtc_l; [apply (Scheduler.step_start _ _ _ _ (Scheduler.TaskC, 0%nat)
                          [] []); simpl; lia|].
  apply rtc_refl.
Defined.

Lemma queue_bounds_concurrency_witness :
  (Z.of_nat (length (Scheduler.running tender_running)) ≤ 5)%Z ∧
  Scheduler.passB_done 1 tender_running.
Proof.
  destruct (queue_bounds_concurrency 5 1 true tender_running
              tender_running_reachable) as (Hmax & _ & HC & _).
  split; [exact Hmax|].
  apply (HC (Scheduler.TaskC, 0%nat)); [apply list_elem_of_here|reflexivity].
Defined.

(** * Further properties *)

Lemma elem_of_responses w n urls r :
  r ∈ responses w n urls →
  ∃ i u, urls !! i = Some u ∧ fetch w (n + i) u = r.
Proof.
  revert n. induction urls as [|u rest IH]; intros n Hin; simpl in Hin.
  - by apply elem_of_nil in Hin.
  - apply elem_of_cons in Hin as [->|Hin].
    + exists 0%nat, u. by rewrite Nat.add_0_r.
    + apply IH in Hin as (i & u' & Hi & <-). exists (S i), u'.
      split; [done|]. f_equal. lia.
Qed.

(** Where a string that was pushed comes from. *)
Lemma pushed_emails_inv w r x :
  x ∈ pushed_emails w r →
  ∃ text, r = Page text ∧ x ∈ js_match emailRegex text ∧
          fits w (js_match emailRegex text) = true.
Proof.
  destruct r as [e|text]; simpl; [by intros ?%elem_of_nil|].
  destruct (fits w (js_match emailRegex text)) eqn:E;
    [by exists text|by intros ?%elem_of_nil].
Qed.

Lemma pushed_phones_inv w r x :
  x ∈ pushed_phones w r →
  ∃ text, r = Page text ∧ x ∈ js_match phoneRegex text ∧
          fits w (js_match emailRegex text) = true ∧
          fits w (js_match phoneRegex text) = true.
Proof.
  destruct r as [e|text]; simpl; [by intros ?%elem_of_nil|].
  destruct (fits w (js_match emailRegex text)) eqn:E;
    [|by intros ?%elem_of_nil].
  destruct (fits w (js_match phoneRegex text)) eqn:E';
    [by exists text|by intros ?%elem_of_nil].
Qed.

Lemma after_page_Failed w u p e c : after_page w u p (Failed e) c = c.
Proof. destruct c. unfold after_page. simpl. by rewrite !app_nil_r. Qed.

Lemma swept_all_failed w v n paths c :
  (∀ i path, paths !! i = Some path →
             ∃ e, fetch w (n + i) (js_concat v path) = Failed e) →
  swept w v n paths c = c.
Proof.
  revert n. induction paths as [|p r IH]; intros n Hfail; [done|].
  cbn [swept]. destruct (Hfail 0%nat p eq_refl) as [e He].
  rewrite Nat.add_0_r in He. rewrite He, after_page_Failed.
  apply IH. intros i path Hi. destruct (Hfail (S i) path Hi) as [e' He'].
  exists e'. by rewrite <- He', Nat.add_succ_r.
Qed.

(** X1: [imprint_url] of the result is the URL of the [/imprint] page when
    the body of the loop ran to its end for it (the page was fetched and
    both pushes had room), else the URL of the [/impressum] page when it did
    for that one, else the empty string; no other page sets it. *)
Theorem scrapContactPages_imprint_url (w : world) (url : string) (s : state) :
  ∃ (info : contactInfo) (s' : state),
    scrapContactPages w (VStr url) s = (Ok info, s') ∧
    imprint_url info =
      if page_done w (fetch w (length (requests s) + 4) (url +:+ "/imprint"))
      then url +:+ "/imprint"
      else if page_done w (fetch w (length (requests s) + 3) (url +:+ "/impressum"))
           then url +:+ "/impressum"
           else "".
Proof.
  eexists _, _. split; [apply scrapContactPages_spec|].
  destruct (contact_of_responses w (VStr url) (length (requests s)))
    as (_ & _ & ->).
  unfold pagesToScrape. cbn [fmap list_fmap responses imprint_after].
  replace (length (requests s) + 4)%nat
    with (S (S (S (S (length (requests s)))))) by lia.
  replace (length (requests s) + 3)%nat
    with (S (S (S (length (requests s))))) by lia.
  change (js_concat (VStr url) "/imprint") with (url +:+ "/imprint").
  change (js_concat (VStr url) "/impressum") with (url +:+ "/impressum").
  change (includes "imprint" "/" || includes "impressum" "/") with false.
  change (includes "imprint" "/contact" || includes "impressum" "/contact") with false.
  change (includes "imprint" "/kontakt" || includes "impressum" "/kontakt") with false.
  change (includes "imprint" "/impressum" || includes "impressum" "/impressum") with true.
  change (includes "imprint" "/imprint" || includes "impressum" "/imprint") with true.
  change (includes "imprint" "/about" || includes "impressum" "/about") with false.
  change (includes "imprint" "/ubersicht" || includes "impressum" "/ubersicht") with false.
  rewrite !andb_false_r, !andb_true_r.
  by destruct (page_done w (fetch w _ (url +:+ "/imprint"))).
Qed.

(** X2: one call of [scrapContactPages] issues seven requests and changes
    nothing else: the heap, the log and the dataset are as before (a failed
    page is not even logged), and the address of the result is the empty
    string, whatever the pages hold. *)
Theorem scrapContactPages_is_silent (w : world) (url : value) (s : state) :
  ∃ (info : contactInfo) (s' : state),
    scrapContactPages w url s = (Ok info, s') ∧
    heap s' = heap s ∧ log s' = log s ∧ dataset s' = dataset s ∧
    length (requests s') = (length (requests s) + 7)%nat ∧
    address info = "".
Proof.
  eexists _, _. split; [apply scrapContactPages_spec|].
  unfold with_requests, contact_of. cbn [heap log dataset requests address].
  destruct (swept_spec w url (length (requests s)) pagesToScrape
              (ContactInfo [] [] "" "")) as (_ & _ & ->).
  repeat split. by rewrite length_app, length_fmap.
Qed.

(** X3: every string of the returned emails (phones) is a match of the email
    (phone) pattern on the text of a page that one of the seven requests of
    the call fetched. *)
Theorem scrapContactPages_returns_only_matches
    (w : world) (url : string) (s : state) :
  ∃ (info : contactInfo) (s' : state),
    scrapContactPages w (VStr url) s = (Ok info, s') ∧
    (∀ e, e ∈ emails info →
       ∃ i path text,
         pagesToScrape !! i = Some path ∧
         fetch w (length (requests s) + i) (url +:+ path) = Page text ∧
         e ∈ js_match emailRegex text) ∧
    (∀ p, p ∈ phones info →
       ∃ i path text,
         pagesToScrape !! i = Some path ∧
         fetch w (length (requests s) + i) (url +:+ path) = Page text ∧
         p ∈ js_match phoneRegex text).
Proof.
  eexists _, _. split; [apply scrapContactPages_spec|].
  destruct (contact_of_responses w (VStr url) (length (requests s)))
    as (-> & -> & _).
  split; intros x Hx; apply (proj1 (elem_of_js_Set _ _)) in Hx;
    apply elem_of_flat_map in Hx as (r & Hr & Hx);
    apply elem_of_responses in Hr as (i & u & Hi & Hf);
    rewrite list_lookup_fmap in Hi;
    destruct (pagesToScrape !! i) as [path|] eqn:Hp; simplify_eq/=.
  - apply pushed_emails_inv in Hx as (text & Hf & Hx & _).
    by exists i, path, text.
  - apply pushed_phones_inv in Hx as (text & Hf & Hx & _).
    by exists i, path, text.
Qed.

Lemma scrapContactPages_returns_only_matches_witness :
  ∃ i path text,
    pagesToScrape !! i = Some path ∧
    fetch imprint_only (0 + i) ("https://www.omv.com" +:+ path) = Page text ∧
    "office@omv.com" ∈ js_match emailRegex text.
Proof.
  destruct (scrapContactPages_returns_only_matches imprint_only
              "https://www.omv.com" empty_state) as (info & s' & Hrun & He & _).
  apply He. apply (f_equal fst) in Hrun. vm_compute in Hrun.
  injection Hrun as <-. apply list_elem_of_here.
Defined.

(** X4: when all seven requests fail, the result is the initial contact
    data: no emails, no phones, empty address and imprint URL; the seven
    requests were issued all the same. *)
Theorem scrapContactPages_unreachable_site
    (w : world) (url : string) (s : state) :
  (∀ i path, pagesToScrape !! i = Some path →
             ∃ e, fetch w (length (requests s) + i) (url +:+ path) = Failed e) →
  ∃ s',
    scrapContactPages w (VStr url) s = (Ok (ContactInfo [] [] "" ""), s') ∧
    requests s' = requests s ++ ((fun path => url +:+ path) <$> pagesToScrape).
Proof.
  intros Hfail.
  exists (with_requests s (js_concat (VStr url) <$> pagesToScrape)).
  split; [|done]. rewrite scrapContactPages_spec. unfold contact_of.
  by rewrite swept_all_failed.
Qed.

Lemma scrapContactPages_unreachable_site_witness :
  ∃ s',
    scrapContactPages unreachable (VStr "https://www.erstegroup.com") empty_state
      = (Ok (ContactInfo [] [] "" ""), s').
Proof.
  destruct (scrapContactPages_unreachable_site unreachable
              "https://www.erstegroup.com" empty_state) as (s' & Hrun & _).
  - intros i path _. by eexists.
  - by exists s'.
Defined.

Lemma enrichCompanyContact_eq w (l : loc) (s : state) :
  enrichCompanyContact w l s =
  (Ok (fresh (dom (heap s))),
   State (<[fresh (dom (heap s)) :=
              enriched_obj w (length (requests s)) (default ∅ (heap s !! l))]>
            (heap s))
     (log s) (requests s ++ requests_for (default ∅ (heap s !! l))) (dataset s)).
Proof.
  destruct s as [h lg rq ds]. cbn [heap log requests dataset].
  remember (fresh (dom h)) as l' eqn:El'.
  remember (default ∅ (h !! l)) as o eqn:Eo.
  unfold enriched_obj, requests_for, website_of.
  remember (default VUndefined (o !! "website_url")) as url eqn:Eurl.
  unfold enrichCompanyContact.
  rewrite (bind_run _ _ _ (State h lg rq ds) o) by (by rewrite Eo).
  rewrite (bind_run _ _ _ (set_heap (<[l':=o]> h) (State h lg rq ds)) l')
    by (by rewrite El').
  unfold set_heap. cbn [heap log requests dataset].
  rewrite (bind_run _ _ _ _ _
             (get_field_eq l' "website_url" o (State (<[l':=o]> h) lg rq ds)
                (lookup_insert_eq _ _ _))).
  rewrite <- Eurl.
  destruct (truthy url) eqn:Hurl; cbn [negb].
  - rewrite bind_ret.
    erewrite bind_run; [|apply get_field_eq, lookup_insert_eq].
    rewrite <- Eurl, Hurl.
    erewrite bind_run; [reflexivity|].
    erewrite bind_run; [|apply scrapContactPages_spec].
    unfold with_requests, with_contact. cbn [heap log requests dataset].
    repeat (erewrite bind_run; [|apply set_field_eq, lookup_insert_eq];
            unfold set_heap; cbn [heap log requests dataset];
            rewrite insert_insert_eq, ?js_or_string, ?js_or_array).
    erewrite set_field_eq by apply lookup_insert_eq.
    unfold set_heap. cbn [heap log requests dataset].
    by rewrite insert_insert_eq.
  - rewrite app_nil_r.
    erewrite bind_run; cycle 1.
    { erewrite bind_run; [|apply get_field_eq, lookup_insert_eq].
      erewrite bind_run; [|reflexivity].
      apply set_field_eq, lookup_insert_eq. }
    unfold set_heap. cbn [heap log requests dataset]. rewrite insert_insert_eq.
    erewrite bind_run; [|apply get_field_eq, lookup_insert_eq].
    by rewrite lookup_insert_eq.
Qed.

Lemma contact_of_unreachable (w : world) (n : nat) (url : string) :
  (∀ i path, pagesToScrape !! i = Some path →
             ∃ e, fetch w (n + i) (url +:+ path) = Failed e) →
  contact_of w (VStr url) n = ContactInfo [] [] "" "".
Proof. intros Hfail. unfold contact_of. by rewrite swept_all_failed. Qed.

(** X7: [enrichCompanyContact] never throws, whatever the record and the
    network; its result is a reference the heap did not hold, no object
    that was there changes, and nothing is logged or pushed. *)
Theorem enrichCompanyContact_never_throws (w : world) (company : loc) (s : state) :
  ∃ (enriched : loc) (s' : state),
    enrichCompanyContact w company s = (Ok enriched, s') ∧
    (enriched ∉ dom (heap s)) ∧
    dom (heap s') = {[enriched]} ∪ dom (heap s) ∧
    (∀ l, l ≠ enriched → heap s' !! l = heap s !! l) ∧
    log s' = log s ∧ dataset s' = dataset s.
Proof.
  eexists _, _. split; [apply enrichCompanyContact_eq|]. cbn [heap log dataset].
  split; [apply is_fresh|]. split; [apply dom_insert_L|].
  split; [|done]. intros l Hl. by rewrite lookup_insert_ne.
Qed.



(** X9: when the site of a company does not answer, the enriched record is
    the input record with [emails: []], [phones: []], [address: ''] and
    [imprint_url: '']. *)
Theorem enrichCompanyContact_unreachable_site
    (w : world) (company : loc) (o : obj) (url : string) (s : state) :
  heap s !! company = Some o →
  o !! "website_url" = Some (VStr url) →
  url ≠ "" →
  (∀ i path, pagesToScrape !! i = Some path →
             ∃ e, fetch w (length (requests s) + i) (url +:+ path) = Failed e) →
  ∃ (enriched : loc) (s' : state),
    enrichCompanyContact w company s = (Ok enriched, s') ∧
    heap s' !! enriched =
      Some (<["imprint_url" := VStr ""]> (
            <["address" := VStr ""]> (
            <["phones" := VArr []]> (
            <["emails" := VArr []]> o)))).
Proof.
  intros Ho Hurl Hne Hfail.
  eexists _, _. split; [apply enrichCompanyContact_eq|]. cbn [heap].
  rewrite lookup_insert_eq, Ho. cbn [default from_option id]. f_equal.
  unfold enriched_obj, website_of. rewrite Hurl. cbn [default from_option id truthy].
  destruct (String.eqb_spec url ""); [done|]. cbn [negb].
  by rewrite (contact_of_unreachable w (length (requests s)) url Hfail).
Qed.

Lemma enrichCompanyContact_unreachable_site_witness :
  ∃ (enriched : loc) (s' : state),
    enrichCompanyContact unreachable 1%positive omv_state = (Ok enriched, s') ∧
    heap s' !! enriched =
      Some (<["imprint_url" := VStr ""]> (
            <["address" := VStr ""]> (
            <["phones" := VArr []]> (
            <["emails" := VArr []]> omv)))).
Proof.
  apply (enrichCompanyContact_unreachable_site unreachable 1%positive omv
           "https://www.omv.com" omv_state).
  - reflexivity.
  - reflexivity.
  - discriminate.
  - intros i path _. by eexists.
Defined.

Lemma bind_throw {A B} (e : string) (k : A → M B) (s : state) :
  (throw e ≫= k) s = (Throw e, s).
Proof. reflexivity. Qed.

(** X10: when the tender call returns, the task stores what it returned in
    [tender_data] of the company; but when it returned [null] or
    [undefined], reading [open_count] for the log line throws, and the
    handler overwrites [tender_data] with the fallback [{open_count: 0,
    closed_count: 0, tenders: []}]. *)
Theorem tenderTask_stores_tender_data
    (tender : loc → Z → M value) (lookback : Z) (company : loc)
    (s s1 : state) (tenderData : value) (o : obj) :
  tender company lookback s = (Ok tenderData, s1) →
  heap s1 !! company = Some o →
  ∃ s',
    tenderTask tender lookback company s = (Ok tt, s') ∧
    heap s' =
      <[company :=
          <["tender_data" :=
              match tenderData with
              | VUndefined | VNull => fallbackTenderData
              | _ => tenderData
              end]> o]> (heap s1) ∧
    requests s' = requests s1 ∧ dataset s' = dataset s1.
Proof.
  intros Htd Ho. unfold tenderTask, try_catch.
  rewrite (bind_run _ _ _ _ _ Htd).
  erewrite bind_run; [|by apply set_field_eq].
  unfold set_heap. cbn [heap log requests dataset].
  erewrite bind_run; [|reflexivity].
  destruct tenderData; cbn [get_prop].
  1,2: rewrite bind_throw; cbv beta iota;
       erewrite bind_run; [|reflexivity];
       erewrite bind_run; [|reflexivity];
       erewrite set_field_eq by apply lookup_insert_eq;
       eexists; split; [reflexivity|];
       unfold set_heap; cbn [heap log requests dataset];
       by rewrite !insert_insert_eq.
  all: erewrite bind_run; [|reflexivity]; eexists; split; [reflexivity|done].
Qed.

Lemma tenderTask_stores_tender_data_witness :
  ∃ s',
    tenderTask null_tender 12 1%positive omv_state = (Ok tt, s') ∧
    heap s' = <[1%positive := <["tender_data" := fallbackTenderData]> omv]>
                (heap omv_state).
Proof.
  destruct (tenderTask_stores_tender_data null_tender 12 1%positive omv_state
              omv_state VNull omv eq_refl eq_refl) as (s' & Hrun & Hheap & _).
  exists s'. split; [exact Hrun|exact Hheap].
Defined.

Lemma info_ext_refl l : info_ext l l.
Proof. exists []. by rewrite app_nil_r. Qed.

Lemma info_ext_trans l1 l2 l3 : info_ext l1 l2 → info_ext l2 l3 → info_ext l1 l3.
Proof.
  intros (n1 & -> & H1) (n2 & -> & H2). exists (n1 ++ n2).
  rewrite app_assoc. split; [done|]. by apply Forall_app.
Qed.

Lemma info_ext_snoc l l' msg : info_ext l l' → info_ext l (l' ++ [(LInfo, msg)]).
Proof.
  intros H. eapply info_ext_trans; [exact H|].
  exists [(LInfo, msg)]. split; [done|]. by repeat constructor.
Qed.

Lemma fmap_Some_Forall2 {A B} (f : A → option B) (l : list A) (k : list B) :
  f <$> l = Some <$> k → Forall2 (fun x y => f x = Some y) l k.
Proof.
  revert k. induction l as [|x l IH]; intros [|y k] H; simplify_eq/=;
    constructor; auto.
Qed.

Section Actual.

Variable w : world.
Variable queue : PQueue.

(** The loop of TASK B with [enrichCompanyContact]. *)
Lemma contact_loop_actual (cs : list loc) (os : list obj) (acc : list loc)
    (s : state) :
  Forall2 (fun c o => heap s !! c = Some o) cs os →
  ∃ (es : list loc) (s' : state),
    for_of cs
      (fun acc c => queue_add queue (enrichTask (enrichCompanyContact w) acc c))
      acc s = (Ok (acc ++ es), s') ∧
    heap s ⊆ heap s' ∧
    requests s' = requests s ++ flat_map requests_for os ∧
    dataset s' = dataset s ∧
    info_ext (log s) (log s') ∧
    Forall2 (fun e o' => heap s' !! e = Some o') es
      (enriched_objs w (length (requests s)) os).
Proof.
  intros Hall. revert os acc s Hall.
  induction cs as [|c cs IH]; intros os acc s Hall.
  - apply Forall2_nil_inv_l in Hall as ->.
    exists [], s. rewrite !app_nil_r.
    repeat split; try done; try apply info_ext_refl.
  - apply Forall2_cons_inv_l in Hall as (o & os' & Ho & Hrest & ->).
    rewrite for_of_cons. unfold queue_add at 1.
    erewrite enrichTask_ok; [|apply enrichCompanyContact_eq].
    rewrite Ho. cbn [default from_option id].
    set (l' := fresh (dom (heap s))).
    set (o' := enriched_obj w (length (requests s)) o).
    assert (heap s !! l' = None) as Hfresh by apply not_elem_of_dom, is_fresh.
    match goal with |- context [for_of cs _ _ ?t] => set (s1 := t) end.
    assert (heap s ⊆ heap s1) as Hsub by (by apply insert_subseteq).
    destruct (IH os' (acc ++ [l']) s1) as (es & s' & Hrun & Hsub' & Hrq & Hds & Hlog & Hobjs).
    { eapply Forall2_impl; [exact Hrest|]. intros c' o'' Hc'.
      eapply lookup_weaken; [exact Hc'|exact Hsub]. }
    exists (l' :: es), s'. rewrite Hrun, <- app_assoc.
    split; [done|]. split; [by etrans|].
    split; [by rewrite Hrq; simpl; rewrite app_assoc|].
    split; [done|]. split.
    + eapply info_ext_trans; [|exact Hlog].
      apply info_ext_snoc, info_ext_refl.
    + simpl. constructor.
      * eapply lookup_weaken; [|exact Hsub']. apply lookup_insert_eq.
      * revert Hobjs. subst s1. unfold logged. cbn [requests].
        by rewrite length_app.
Qed.

Lemma contactPass_actual (cs : list loc) (os : list obj) (s : state) :
  Forall2 (fun c o => heap s !! c = Some o) cs os →
  ∃ (es : list loc) (s' : state),
    contactPass (enrichCompanyContact w) queue cs s = (Ok es, s') ∧
    heap s ⊆ heap s' ∧
    requests s' = requests s ++ flat_map requests_for os ∧
    dataset s' = dataset s ∧
    info_ext (log s) (log s') ∧
    Forall2 (fun e o' => heap s' !! e = Some o') es
      (enriched_objs w (length (requests s)) os).
Proof.
  intros Hall.
  destruct (contact_loop_actual cs os [] s Hall) as (es & s' & Hrun & H).
  exists es, s'. split; [|exact H].
  unfold contactPass, queue_onIdle, mbind, M_bind, bind. by rewrite Hrun.
Qed.

(** The task of TASK C with [scrapeTenderData]. *)
Lemma tenderTask_actual (lookback : Z) (c : loc) (s : state) :
  ∃ s',
    tenderTask scrapeTenderData lookback c s = (Ok tt, s') ∧
    heap s' = alter (fun o => <["tender_data" := emptyTenderData]> o) c (heap s) ∧
    requests s' = requests s ∧ dataset s' = dataset s ∧
    info_ext (log s) (log s').
Proof.
  eexists. split; [reflexivity|]. cbn [heap requests dataset log].
  repeat split. do 2 apply info_ext_snoc. apply info_ext_refl.
Qed.

Lemma tender_loop_actual (lookback : Z) (es : list loc) (s : state) :
  ∃ s',
    for_of es
      (fun _ c => queue_add queue (tenderTask scrapeTenderData lookback c))
      tt s = (Ok tt, s') ∧
    heap s' =
      foldl (fun h c => alter (fun o => <["tender_data" := emptyTenderData]> o) c h)
        (heap s) es ∧
    requests s' = requests s ∧ dataset s' = dataset s ∧
    info_ext (log s) (log s').
Proof.
  revert s. induction es as [|c es IH]; intros s.
  - exists s. repeat split. apply info_ext_refl.
  - rewrite for_of_cons. unfold queue_add at 1.
    destruct (tenderTask_actual lookback c s) as (s1 & -> & Hh & Hrq & Hds & Hlog).
    destruct (IH s1) as (s' & Hrun & Hh' & Hrq' & Hds' & Hlog').
    exists s'. split; [done|]. simpl. rewrite Hh', Hh, Hrq', Hds'.
    repeat split; try done. by eapply info_ext_trans.
Qed.

End Actual.

Lemma lookup_foldl_tender (es : list loc) (h : gmap loc obj) (l : loc) :
  foldl (fun h c => alter (fun o => <["tender_data" := emptyTenderData]> o) c h)
    h es !! l =
  if decide (l ∈ es)
  then (fun o => <["tender_data" := emptyTenderData]> o) <$> h !! l
  else h !! l.
Proof.
  revert h. induction es as [|c es IH]; intros h; cbn [foldl].
  - destruct (decide (l ∈ [])) as [H|]; [by apply elem_of_nil in H|done].
  - rewrite IH. rewrite lookup_alter.
    destruct (decide (c = l)) as [->|Hne].
    + rewrite (decide_True (P := l ∈ l :: es)) by (by left).
      case_decide; [|done]. rewrite <- option_fmap_compose.
      apply option_fmap_ext. intros o. simpl. apply insert_insert_eq.
    + repeat case_decide; try done.
      * exfalso. set_solver.
      * exfalso. set_solver.
Qed.

Lemma records_output w (h : gmap loc obj) (d : nat) (tenders : bool)
    (es : list loc) (os : list obj) :
  Forall2 (fun e o => h !! e = Some (tendered tenders o)) es os →
  records w h d es = output_records w d tenders os.
Proof.
  intros Hall. revert d. induction Hall as [|e o es os He _ IH]; intros d; [done|].
  simpl. by rewrite He, IH.
Qed.

Lemma tenderPass_actual queue (lookback : Z) (es : list loc) (s : state) :
  ∃ s',
    tenderPass scrapeTenderData queue lookback es s = (Ok tt, s') ∧
    heap s' =
      foldl (fun h c => alter (fun o => <["tender_data" := emptyTenderData]> o) c h)
        (heap s) es ∧
    requests s' = requests s ∧ dataset s' = dataset s ∧
    info_ext (log s) (log s').
Proof.
  destruct (tender_loop_actual queue lookback es s) as (s' & Hrun & H).
  exists s'. split; [|exact H].
  unfold tenderPass, queue_onIdle, mbind, M_bind, bind. by rewrite Hrun.
Qed.

(** What a run of [main] does when the queue can be created. *)
Lemma main_spec (w : world) (i : option input) (s : state) :
  (1 ≤ field_or i max_concurrent_requests 5)%Z →
  ∃ s',
    main w i s = (Ok tt, s') ∧
    requests s' =
      requests s ++
      flat_map requests_for (js_slice seedCompanies 0 (field_or i top_n 100%Z)) ∧
    dataset s' =
      dataset s ++
      output_records w (length (dataset s)) (field_or i include_tenders true)
        (enriched_objs w (length (requests s))
           (js_slice seedCompanies 0 (field_or i top_n 100%Z))) ∧
    info_ext (log s) (log s').
Proof.
  intros Hc.
  destruct (main_with_spec w (enrichCompanyContact w) scrapeTenderData i s Hc)
    as (companies & sA & enriched & sB & sC & s' & HA & HB & HC & Hrun & _ & Hrq & Hds & Hh).
  exists s'. split; [exact Hrun|].
  (* TASK A *)
  destruct (scrapeTopCompanies_spec (field_or i top_n 100%Z) (at_taskA i s))
    as (ls & hA & Hseeds & _ & HA').
  rewrite HA' in HA. injection HA as <- <-.
  assert (Forall2 (fun c o => hA !! c = Some o)
            (js_slice ls 0 (field_or i top_n 100%Z))
            (js_slice seedCompanies 0 (field_or i top_n 100%Z))) as Hcs.
  { apply fmap_Some_Forall2. by rewrite <- !js_slice_fmap, Hseeds. }
  (* TASK B *)
  match type of HB with contactPass _ ?q ?cs ?t = _ =>
    destruct (contactPass_actual w q cs _ t Hcs)
      as (es & sB' & HB' & _ & HrqB & HdsB & HlogB & Hobjs) end.
  rewrite HB' in HB. injection HB as <- <-.
  cbn [heap log requests dataset at_taskA at_taskB logged] in *.
  (* TASK C *)
  assert (requests sC = requests sB' ∧ dataset sC = dataset sB' ∧
          info_ext (log sB') (log sC) ∧
          ∀ e o, e ∈ es → heap sB' !! e = Some o →
                 heap sC !! e = Some (tendered (field_or i include_tenders true) o))
    as (HrqC & HdsC & HlogC & HhC).
  { destruct (field_or i include_tenders true).
    - match type of HC with tenderPass _ ?q ?lb _ ?t = _ =>
        destruct (tenderPass_actual q lb es t) as (sC' & HC' & HhC & HrqC & HdsC & HlogC)
      end.
      rewrite HC' in HC. injection HC as <-.
      split; [done|]. split; [done|]. split.
      + eapply info_ext_trans; [|exact HlogC]. apply info_ext_snoc, info_ext_refl.
      + intros e o He Ho. rewrite HhC, lookup_foldl_tender.
        rewrite decide_True by done. cbn [heap at_taskC logged]. by rewrite Ho.
    - subst sC. repeat split; try done. apply info_ext_refl. }
  split; [by rewrite Hrq, HrqC, HrqB|]. split.
  - rewrite Hds, HdsC, HdsB. f_equal. apply records_output.
    clear -Hobjs HhC. induction Hobjs as [|e o es os' He Hall IH]; constructor.
    + apply HhC; [by left|done].
    + apply IH. intros e' o' He' Ho'. apply HhC; [by right|done].
  - destruct Hh as (line1 & line2 & ->).
    change [(LInfo, line1); (LInfo, line2)]
      with ([(LInfo, line1)] ++ [(LInfo, line2)]).
    rewrite app_assoc. apply info_ext_snoc, info_ext_snoc.
    eapply info_ext_trans; [|exact HlogC].
    eapply info_ext_trans; [|exact HlogB].
    repeat apply info_ext_snoc. apply info_ext_refl.
Qed.

(** X11: with [max_concurrent_requests] below 1 the constructor of the
    queue throws, and [main] creates the queue outside its [try]: the run
    ends with that exception after two lines of level info, without a
    [Main error] line, and no request, object or record was made. *)
Theorem main_rejects_low_concurrency (w : world) (i : option input) (s : state) :
  (field_or i max_concurrent_requests 5 < 1)%Z →
  ∃ (e : string) (s' : state),
    main w i s = (Throw e, s') ∧
    heap s' = heap s ∧ requests s' = requests s ∧ dataset s' = dataset s ∧
    ∃ line1 line2, log s' = log s ++ [(LInfo, line1); (LInfo, line2)].
Proof.
  intros Hc. unfold main, main_with. cbv zeta.
  erewrite bind_run; [|reflexivity].
  erewrite bind_run; [|reflexivity].
  unfold new_PQueue.
  destruct (Z.ltb_spec (field_or i max_concurrent_requests 5%Z) 1%Z); [|lia].
  rewrite bind_throw. eexists _, _. split; [reflexivity|].
  cbn [heap log requests dataset]. repeat split.
  eexists _, _. by rewrite <- app_assoc.
Qed.

Lemma main_rejects_low_concurrency_witness :
  ∃ (e : string) (s' : state),
    main imprint_only (Some (Input None None None None (Some 0%Z) None None))
      omv_state = (Throw e, s') ∧
    heap s' = heap omv_state ∧ requests s' = [] ∧ dataset s' = [].
Proof.
  destruct (main_rejects_low_concurrency imprint_only
              (Some (Input None None None None (Some 0%Z) None None)) omv_state)
    as (e & s' & Hrun & Hh & Hrq & Hds & _).
  { reflexivity. }
  by exists e, s'.
Defined.

(** X12: with a concurrency of at least 1, [main] ends without an exception
    and logs lines of level info only: no failure of a page is ever
    reported. *)
Theorem main_never_reports_errors (w : world) (i : option input) (s : state) :
  (1 ≤ field_or i max_concurrent_requests 5)%Z →
  ∃ (s' : state) (new : list (level * string)),
    main w i s = (Ok tt, s') ∧
    log s' = log s ++ new ∧
    Forall (fun line => line.1 = LInfo) new.
Proof.
  intros Hc. destruct (main_spec w i s Hc) as (s' & Hrun & _ & _ & new & Hlog & Hnew).
  by exists s', new.
Qed.

Lemma main_never_reports_errors_witness :
  ∃ (s' : state) (new : list (level * string)),
    main unreachable None empty_state = (Ok tt, s') ∧
    log s' = new ∧ Forall (fun line => line.1 = LInfo) new.
Proof.
  destruct (main_never_reports_errors unreachable None empty_state)
    as (s' & new & Hrun & Hlog & Hnew).
  { unfold field_or. simpl. lia. }
  exists s', new. split; [exact Hrun|]. split; [exact Hlog|exact Hnew].
Defined.

(** The seed records have a website and no tender data. *)
Lemma seedCompanies_shape :
  Forall (fun o => truthy (website_of o) = true ∧ o !! "tender_data" = None)
    seedCompanies.
Proof. repeat constructor. Qed.

Lemma Forall_js_slice {A} (P : A → Prop) (l : list A) (a b : Z) :
  Forall P l → Forall P (js_slice l a b).
Proof. intros H. unfold js_slice. by apply Forall_take, Forall_drop. Qed.

Lemma length_requests_for (os : list obj) :
  Forall (fun o => truthy (website_of o) = true) os →
  length (flat_map requests_for os) = (7 * length os)%nat.
Proof.
  induction 1 as [|o os Ho _ IH]; [done|].
  simpl. rewrite length_app, IH. unfold requests_for. rewrite Ho, length_fmap.
  simpl. lia.
Qed.

Lemma length_enriched_objs w n os : length (enriched_objs w n os) = length os.
Proof. revert n. induction os as [|o os IH]; intros n; simpl; [done|]. by rewrite IH. Qed.

Lemma length_output_records w d b os :
  length (output_records w d b os) = length os.
Proof. revert d. induction os as [|o os IH]; intros d; simpl; [done|]. by rewrite IH. Qed.

Lemma output_records_lookup w d b os j :
  output_records w d b os !! j =
  (fun o => <["scraped_at" := VStr (clock w (d + j))]> (tendered b o)) <$> os !! j.
Proof.
  revert d j. induction os as [|o os IH]; intros d [|j]; simpl; try done.
  - by rewrite Nat.add_0_r.
  - rewrite IH. by replace (S d + j)%nat with (d + S j)%nat by lia.
Qed.

Lemma enriched_objs_lookup w n os j :
  Forall (fun o => truthy (website_of o) = true) os →
  enriched_objs w n os !! j = enriched_obj w (n + 7 * j) <$> os !! j.
Proof.
  intros Hall. revert n j. induction Hall as [|o os Ho _ IH]; intros n j.
  - by rewrite !lookup_nil.
  - destruct j as [|j]; cbn [enriched_objs lookup list_lookup].
    + by replace (n + 7 * 0)%nat with n by lia.
    + rewrite IH. unfold requests_for. rewrite Ho, length_fmap.
      change (length pagesToScrape) with 7%nat.
      by replace (n + 7 * S j)%nat with (n + 7 + 7 * j)%nat by lia.
Qed.

(** X13: with a concurrency of at least 1, [main] pushes one record for each
    of the first [top_n] seed companies (all three when [top_n] is 3 or
    more) and issues seven requests for each of them. *)
Theorem main_output_count (w : world) (i : option input) (s : state) :
  (1 ≤ field_or i max_concurrent_requests 5)%Z →
  let n := length (js_slice seedCompanies 0 (field_or i top_n 100%Z)) in
  ∃ s',
    main w i s = (Ok tt, s') ∧
    length (dataset s') = (length (dataset s) + n)%nat ∧
    length (requests s') = (length (requests s) + 7 * n)%nat ∧
    ((0 ≤ field_or i top_n 100)%Z →
     n = Z.to_nat (Z.min (field_or i top_n 100%Z) 3)).
Proof.
  intros Hc n. destruct (main_spec w i s Hc) as (s' & Hrun & Hrq & Hds & _).
  exists s'. split; [done|].
  assert (Forall (fun o => truthy (website_of o) = true)
            (js_slice seedCompanies 0 (field_or i top_n 100%Z))) as Hsite.
  { apply Forall_js_slice. eapply Forall_impl; [apply seedCompanies_shape|].
    by intros o [? _]. }
  split; [|split].
  - by rewrite Hds, length_app, length_output_records, length_enriched_objs.
  - by rewrite Hrq, length_app, length_requests_for.
  - intros Hn. unfold n. rewrite js_slice_prefix by done.
    rewrite length_take. change (length seedCompanies) with 3%nat. lia.
Qed.

Lemma main_output_count_witness :
  ∃ s',
    main fails_once (Some (Input None (Some 2%Z) None None None None None))
      empty_state = (Ok tt, s') ∧
    length (dataset s') = 2%nat ∧ length (requests s') = 14%nat.
Proof.
  destruct (main_output_count fails_once
              (Some (Input None (Some 2%Z) None None None None None)) empty_state)
    as (s' & Hrun & Hds & Hrq & _).
  { unfold field_or. simpl. lia. }
  exists s'. split; [exact Hrun|]. split; [exact Hds|exact Hrq].
Defined.

(** X14: the record pushed for the seed company number [j] is the seed
    record with the contact data of its site, scraped by the requests number
    [7j] to [7j + 6] of the run, with the empty tender data when tenders are
    asked for, and with [scraped_at], the time of the push. *)
Theorem main_output_records (w : world) (i : option input) (s : state) :
  (1 ≤ field_or i max_concurrent_requests 5)%Z →
  (0 ≤ field_or i top_n 100)%Z →
  ∃ s',
    main w i s = (Ok tt, s') ∧
    ∀ (j : nat) (o : obj),
      seedCompanies !! j = Some o →
      (Z.of_nat j < field_or i top_n 100)%Z →
      dataset s' !! (length (dataset s) + j)%nat =
      Some (<["scraped_at" := VStr (clock w (length (dataset s) + j))]> (
            (if field_or i include_tenders true
             then <["tender_data" := emptyTenderData]>
             else id)
              (with_contact
                 (contact_of w (default VUndefined (o !! "website_url"))
                    (length (requests s) + 7 * j)) o))).
Proof.
  intros Hc Hn. destruct (main_spec w i s Hc) as (s' & Hrun & _ & Hds & _).
  exists s'. split; [exact Hrun|]. intros j o Hj Hlt.
  assert (Forall (fun o => truthy (website_of o) = true)
            (js_slice seedCompanies 0 (field_or i top_n 100%Z))) as Hsite.
  { apply Forall_js_slice. eapply Forall_impl; [apply seedCompanies_shape|].
    by intros o' [? _]. }
  assert (truthy (website_of o) = true) as Ho.
  { pose proof seedCompanies_shape as Hall.
    rewrite Forall_lookup in Hall. by destruct (Hall j o Hj). }
  rewrite Hds, lookup_app_r by lia.
  replace (length (dataset s) + j - length (dataset s))%nat with j by lia.
  rewrite output_records_lookup, enriched_objs_lookup by done.
  rewrite js_slice_prefix by done.
  pose proof (lookup_lt_Some _ _ _ Hj) as Hlen.
  change (length seedCompanies) with 3%nat in *.
  rewrite lookup_take_lt by lia. rewrite Hj.
  cbn [fmap option_fmap option_map]. unfold tendered, enriched_obj.
  rewrite Ho. unfold website_of. by destruct (field_or i include_tenders true).
Qed.

Lemma main_output_records_witness :
  ∃ s',
    main imprint_only None empty_state = (Ok tt, s') ∧
    (fun o : obj => o !! "company_name") <$> dataset s' !! 2%nat =
      Some (Some (VStr "Erste Group Bank AG")) ∧
    (fun o : obj => o !! "scraped_at") <$> dataset s' !! 2%nat =
      Some (Some (VStr "2026-02-24T17:00:02.000Z")).
Proof.
  destruct (main_output_records imprint_only None empty_state)
    as (s' & Hrun & Hrec).
  { unfold field_or. simpl. lia. }
  { unfold field_or. simpl. lia. }
  exists s'. split; [exact Hrun|].
  pose proof (Hrec 2%nat (seedCompany 3 "Erste Group Bank AG" "Finance" "Vienna"
                            14600000000 "https://www.erstegroup.com") eq_refl)
    as Hthird.
  change (length (dataset empty_state) + 2)%nat with 2%nat in Hthird.
  rewrite Hthird; [split; reflexivity|]. unfold field_or. simpl. lia.
Defined.

(** What [rep] consumed is a run of the class within the bounds, and the
    continuation matched what follows. *)
Lemma rep_sound p lo hi k s n :
  rep p lo hi k s = Some n →
  ∃ x y j,
    s = x ++ y ∧ n = (length x + j)%nat ∧
    (lo ≤ length x)%nat ∧
    (∀ h, hi = Some h → (length x ≤ h)%nat) ∧
    forallb p x = true ∧ k y = Some j.
Proof.
  revert lo hi n. induction s as [|a rest IH]; intros lo hi n Hrep.
  - simpl in Hrep. destruct lo; [|done].
    exists [], [], n. repeat split; try done. intros; simpl; lia.
  - simpl in Hrep.
    assert (match lo with O => k (a :: rest) | S _ => None end = Some n →
            ∃ x y j, a :: rest = x ++ y ∧ n = (length x + j)%nat ∧
              (lo ≤ length x)%nat ∧
              (∀ h, hi = Some h → (length x ≤ h)%nat) ∧
              forallb p x = true ∧ k y = Some j) as Hstop.
    { destruct lo; [|done]. intros Hk.
      exists [], (a :: rest), n. repeat split; try done. intros; simpl; lia. }
    destruct (p a && negb (bool_decide (hi = Some 0%nat))) eqn:Hgo; [|by apply Hstop].
    destruct (rep p (pred lo) (pred <$> hi) k rest) as [n'|] eqn:Hrec;
      [|by apply Hstop].
    simplify_eq. apply andb_true_iff in Hgo as [Hpa Hhi].
    apply negb_true_iff, bool_decide_eq_false in Hhi.
    destruct (IH _ _ _ Hrec) as (x & y & j & -> & -> & Hlo & Hmax & Hall & Hk).
    exists (a :: x), y, j. simpl.
    repeat split; try done; try lia.
    + intros h ->. specialize (Hmax (pred h) eq_refl).
      destruct h; [done|]. simpl in Hmax. lia.
    + by rewrite Hpa, Hall.
Qed.

Lemma match_seq_sound atoms s n :
  match_seq atoms s = Some n →
  ∃ x y, s = x ++ y ∧ length x = n ∧ in_seq atoms x.
Proof.
  revert s n. induction atoms as [|a r IH]; intros s n Hm.
  - simpl in Hm. simplify_eq. exists [], s. repeat split. constructor.
  - simpl in Hm. apply rep_sound in Hm
      as (x & y & j & -> & -> & Hlo & Hmax & Hall & Hk).
    apply IH in Hk as (x' & y' & -> & <- & Hseq).
    exists (x ++ x'), y'. rewrite app_assoc, length_app.
    repeat split. by constructor.
Qed.

Lemma match_here_sound r s n :
  match_here r s = Some n →
  ∃ x y, s = x ++ y ∧ length x = n ∧ in_regex r x.
Proof.
  induction r as [|alt r IH]; [done|]. simpl.
  destruct (match_seq alt s) as [m|] eqn:Hm.
  - intros ?; simplify_eq. apply match_seq_sound in Hm as (x & y & -> & <- & Hseq).
    exists x, y. repeat split. exists alt. split; [by left|done].
  - intros (x & y & -> & <- & alt' & Hin & Hseq)%IH.
    exists x, y. repeat split. exists alt'. split; [by right|done].
Qed.

(** Every match is the characters of a piece of the text, and they are a
    character sequence of the pattern. *)
Lemma match_all_sound r skip s m :
  m ∈ match_all r skip s →
  ∃ pre x post, s = pre ++ x ++ post ∧ m = String.concat "" x ∧ in_regex r x.
Proof.
  revert skip. induction s as [|a rest IH]; intros skip Hin.
  - simpl in Hin. destruct skip; [|by apply elem_of_nil in Hin].
    destruct (match_here r []) as [n|] eqn:Hm; [|by apply elem_of_nil in Hin].
    apply list_elem_of_singleton in Hin as ->.
    apply match_here_sound in Hm as (x & y & Hxy & _ & Hre).
    destruct x; [|done]. by exists [], [], [].
  - assert (∀ k, m ∈ match_all r k rest →
              ∃ pre x post, a :: rest = pre ++ x ++ post ∧
                            m = String.concat "" x ∧ in_regex r x)
      as Hrest.
    { intros k (pre & x & post & -> & -> & Hre)%IH.
      by exists (a :: pre), x, post. }
    cbn [match_all] in Hin. destruct skip as [|k]; [|by eapply Hrest].
    destruct (match_here r (a :: rest)) as [[|n]|] eqn:Hm;
      [| |by eapply Hrest].
    + apply elem_of_cons in Hin as [->|Hin]; [|by eapply Hrest].
      apply match_here_sound in Hm as (x & y & Hxy & Hlen & Hre).
      destruct x; [|done]. by exists [], [], (a :: rest).
    + apply elem_of_cons in Hin as [->|Hin]; [|by eapply Hrest].
      apply match_here_sound in Hm as (x & y & Hxy & Hlen & Hre).
      exists [], x, y. split; [done|]. split; [|done].
      by rewrite Hxy, <- Hlen, take_app_length.
Qed.

Lemma js_match_sound r text m :
  m ∈ js_match r text →
  ∃ pre x post,
    chars text = pre ++ x ++ post ∧ m = String.concat "" x ∧ in_regex r x.
Proof. apply match_all_sound. Qed.

Lemma append_cons a x y : String a x +:+ y = String a (x +:+ y).
Proof. reflexivity. Qed.

Lemma append_nil_r x : x +:+ "" = x.
Proof. induction x as [|a x IH]; [done|]. by rewrite append_cons, IH. Qed.

Lemma append_assoc x y z : (x +:+ y) +:+ z = x +:+ y +:+ z.
Proof. induction x as [|a x IH]; [done|]. by rewrite !append_cons, IH. Qed.

Lemma string_concat_cons (c : string) (cs : list string) :
  String.concat "" (c :: cs) = c +:+ String.concat "" cs.
Proof.
  destruct cs as [|d cs]; [|reflexivity].
  cbn [String.concat]. by rewrite append_nil_r.
Qed.

Lemma string_concat_app (x y : list string) :
  String.concat "" (x ++ y) = String.concat "" x +:+ String.concat "" y.
Proof.
  induction x as [|c x IH]; [done|].
  by rewrite <- app_comm_cons, !string_concat_cons, IH, append_assoc.
Qed.

Lemma length_append x y :
  String.length (x +:+ y) = (String.length x + String.length y)%nat.
Proof.
  induction x as [|a x IH]; [done|]. rewrite append_cons. simpl. by rewrite IH.
Qed.

Lemma each_append p x y : each p (x +:+ y) = each p x && each p y.
Proof.
  induction x as [|a x IH]; [done|]. rewrite append_cons. simpl.
  by rewrite IH, andb_assoc.
Qed.

(** A run of a class of one-byte characters is a string of as many bytes,
    each of them in the class. *)
Lemma run_one_byte p (x : list string) :
  one_byte p → forallb p x = true →
  String.length (String.concat "" x) = length x ∧
  each p (String.concat "" x) = true.
Proof.
  intros Hp. induction x as [|c x IH]; [done|]. cbn [forallb].
  intros [Hc Hx]%andb_true_iff. destruct (IH Hx) as [IHl IHe].
  destruct (Hp c Hc) as [a ->].
  rewrite string_concat_cons, append_cons.
  change ("" +:+ String.concat "" x) with (String.concat "" x).
  cbn [String.length each]. by rewrite IHl, Hc, IHe.
Qed.

Lemma one_byte_between lo hi : one_byte (between lo hi).
Proof.
  intros c. unfold between, bytes. destruct c as [|a [|b c]]; try done.
  intros _. by exists a.
Qed.

Lemma one_byte_is_char x : one_byte (is_char x).
Proof.
  intros c Hc. exists x. unfold is_char in Hc. by apply String.eqb_eq in Hc.
Qed.

Ltac one_byte_cases H :=
  repeat (apply orb_true_iff in H as [H|H]);
  first [ by eapply one_byte_between | by eapply one_byte_is_char ].

Lemma one_byte_is_alpha : one_byte is_alpha.
Proof. intros c Hc. unfold is_alpha in Hc. one_byte_cases Hc. Qed.

Lemma one_byte_is_domain : one_byte is_domain.
Proof. intros c Hc. unfold is_domain, is_alpha in Hc. one_byte_cases Hc. Qed.

Lemma one_byte_is_local : one_byte is_local.
Proof. intros c Hc. unfold is_local, is_alpha in Hc. one_byte_cases Hc. Qed.

Lemma in_atom_one p x :
  in_atom (one p) x → ∃ c, x = [c] ∧ p c = true.
Proof.
  intros (Hlo & Hhi & Hall). specialize (Hhi 1%nat eq_refl). simpl in *.
  destruct x as [|c [|]]; simpl in *; try lia.
  exists c. split; [done|]. by apply andb_true_iff in Hall as [? _].
Qed.

Lemma in_atom_char a x : in_atom (one (is_char a)) x → x = [String a ""].
Proof.
  intros (c & -> & Hc)%in_atom_one. unfold is_char in Hc.
  by apply String.eqb_eq in Hc as <-.
Qed.

Ltac invert_seq :=
  repeat match goal with
  | H : in_seq (_ :: _) _ |- _ => inversion H; clear H; subst
  | H : in_seq [] _ |- _ => inversion H; clear H; subst
  | H : in_atom (one (is_char _)) _ |- _ => apply in_atom_char in H as ->
  end.

Lemma emailRegex_shape x :
  in_regex emailRegex x →
  ∃ l d t,
    String.concat "" x = l +:+ "@" +:+ d +:+ "." +:+ t ∧
    (1 ≤ String.length l)%nat ∧ each is_local l = true ∧
    (1 ≤ String.length d)%nat ∧ each is_domain d = true ∧
    (2 ≤ String.length t)%nat ∧ each is_alpha t = true.
Proof.
  intros (alt & Hin & Hseq). unfold emailRegex in Hin.
  apply list_elem_of_singleton in Hin as ->. invert_seq.
  match goal with
  | Hl : in_atom (plus is_local) ?l, Hd : in_atom (plus is_domain) ?d,
    Ht : in_atom (at_least 2 is_alpha) ?t |- _ =>
      destruct Hl as (Hl1 & _ & Hl2), Hd as (Hd1 & _ & Hd2), Ht as (Ht1 & _ & Ht2);
      destruct (run_one_byte _ l one_byte_is_local Hl2) as [Ll Le];
      destruct (run_one_byte _ d one_byte_is_domain Hd2) as [Dl De];
      destruct (run_one_byte _ t one_byte_is_alpha Ht2) as [Tl Te];
      exists (String.concat "" l), (String.concat "" d), (String.concat "" t)
  end.
  rewrite app_nil_r, !string_concat_app. simpl in Hl1, Hd1, Ht1.
  rewrite Ll, Dl, Tl. by repeat split.
Qed.

Lemma forallb_weaken {A} (p q : A → bool) (x : list A) :
  (∀ c, p c = true → q c = true) → forallb p x = true → forallb q x = true.
Proof.
  intros Hpq. induction x as [|a x IH]; [done|]. simpl.
  intros [Ha Hx]%andb_true_iff. by rewrite (Hpq _ Ha), IH.
Qed.

Lemma is_phone_char_digit c : is_digit c = true → is_phone_char c = true.
Proof. unfold is_phone_char. by intros ->. Qed.

Lemma is_phone_char_sep c : is_sep c = true → is_phone_char c = true.
Proof. unfold is_phone_char. intros ->. by rewrite orb_true_r. Qed.

Lemma is_phone_char_space c : is_space c = true → is_phone_char c = true.
Proof. intros H. apply is_phone_char_sep. unfold is_sep. by rewrite H. Qed.

(** A phone match begins with [+43] or with [0], has from 3 to 23
    characters, and they are digits, separators and the plus sign. *)
Lemma phoneRegex_shape x :
  in_regex phoneRegex x →
  ((∃ rest, x = ["+"; "4"; "3"] ++ rest) ∨ (∃ rest, x = ["0"] ++ rest)) ∧
  (3 ≤ length x ≤ 23)%nat ∧
  forallb is_phone_char x = true.
Proof.
  intros (alt & Hin & Hseq). unfold phoneRegex in Hin.
  apply elem_of_cons in Hin as [->|Hin];
    [|apply list_elem_of_singleton in Hin as ->]; invert_seq;
    repeat match goal with
    | H : in_atom _ _ |- _ =>
        let Hlo := fresh "Hlo" in let Hhi := fresh "Hhi" in
        let Hall := fresh "Hall" in
        destruct H as (Hlo & Hhi & Hall);
        specialize (Hhi _ eq_refl); simpl in Hlo, Hhi, Hall
    end.
  - split; [left; by eexists|].
    rewrite !length_app, !forallb_app. simpl length.
    split; [lia|].
    repeat (apply andb_true_iff; split); try done;
      eauto using forallb_weaken, is_phone_char_digit, is_phone_char_sep,
        is_phone_char_space.
  - split; [right; by eexists|].
    rewrite !length_app, !forallb_app. simpl length.
    split; [lia|].
    repeat (apply andb_true_iff; split); try done;
      eauto using forallb_weaken, is_phone_char_digit, is_phone_char_sep,
        is_phone_char_space.
Qed.

(** X5: every returned email is [l@d.t] where [l] is one or more characters
    of [[a-zA-Z0-9._%+-]], [d] one or more of [[a-zA-Z0-9.-]] and [t] two or
    more letters. *)
Theorem extracted_emails_have_the_shape (w : world) (url : string) (s : state) :
  ∃ (info : contactInfo) (s' : state),
    scrapContactPages w (VStr url) s = (Ok info, s') ∧
    ∀ e, e ∈ emails info →
      ∃ l d t,
        e = l +:+ "@" +:+ d +:+ "." +:+ t ∧
        (1 ≤ String.length l)%nat ∧ each is_local l = true ∧
        (1 ≤ String.length d)%nat ∧ each is_domain d = true ∧
        (2 ≤ String.length t)%nat ∧ each is_alpha t = true.
Proof.
  eexists _, _. split; [apply scrapContactPages_spec|].
  destruct (contact_of_responses w (VStr url) (length (requests s)))
    as (-> & _ & _).
  intros e He. apply (proj1 (elem_of_js_Set _ _)) in He.
  apply elem_of_flat_map in He as (r & _ & He).
  apply pushed_emails_inv in He as (text & _ & He & _).
  apply js_match_sound in He as (pre & x & post & _ & -> & Hx).
  by apply emailRegex_shape.
Qed.

Lemma extracted_emails_have_the_shape_witness :
  ∃ l d t,
    "office@omv.com" = l +:+ "@" +:+ d +:+ "." +:+ t ∧
    (1 ≤ String.length l)%nat ∧ each is_local l = true ∧
    (1 ≤ String.length d)%nat ∧ each is_domain d = true ∧
    (2 ≤ String.length t)%nat ∧ each is_alpha t = true.
Proof.
  destruct (extracted_emails_have_the_shape imprint_only
              "https://www.omv.com" empty_state) as (info & s' & Hrun & He).
  apply He. apply (f_equal fst) in Hrun. vm_compute in Hrun.
  injection Hrun as <-. apply list_elem_of_here.
Defined.

(** X6: every returned phone begins with [+43] or with [0], has from 3 to 23
    characters, and every character is a digit, a white-space character, a
    hyphen or the plus sign. *)
Theorem extracted_phones_have_the_shape (w : world) (url : string) (s : state) :
  ∃ (info : contactInfo) (s' : state),
    scrapContactPages w (VStr url) s = (Ok info, s') ∧
    ∀ p, p ∈ phones info →
      ((∃ rest, p = "+43" +:+ rest) ∨ (∃ rest, p = "0" +:+ rest)) ∧
      ∃ cs : list string,
        p = String.concat "" cs ∧
        (3 ≤ length cs ≤ 23)%nat ∧
        forallb is_phone_char cs = true.
Proof.
  eexists _, _. split; [apply scrapContactPages_spec|].
  destruct (contact_of_responses w (VStr url) (length (requests s)))
    as (_ & -> & _).
  intros p Hp. apply (proj1 (elem_of_js_Set _ _)) in Hp.
  apply elem_of_flat_map in Hp as (r & _ & Hp).
  apply pushed_phones_inv in Hp as (text & _ & Hp & _).
  apply js_match_sound in Hp as (pre & x & post & _ & -> & Hx).
  apply phoneRegex_shape in Hx as (Hhead & Hlen & Hall).
  split; [|by exists x].
  destruct Hhead as [[rest ->]|[rest ->]]; [left|right];
    exists (String.concat "" rest); by rewrite string_concat_app.
Qed.

Lemma extracted_phones_have_the_shape_witness :
  (∃ rest, "+43 1 40440" = "+43" +:+ rest) ∨ (∃ rest, "+43 1 40440" = "0" +:+ rest).
Proof.
  destruct (extracted_phones_have_the_shape imprint_only
              "https://www.omv.com" empty_state) as (info & s' & Hrun & Hp).
  apply Hp. apply (f_equal fst) in Hrun. vm_compute in Hrun.
  injection Hrun as <-. apply list_elem_of_here.
Defined.
